(** * Sankey helpers for posterior traces: a shallow embedding of
    [trace_sankey_helpers.py] and the properties of its edge-list
    conversions, colour scales and notebook wrappers.

    Conventions of the embedding.
    - numpy's float64 entries are idealised as rationals [Q] where the
      code only compares them with zero, copies them, or (for the hues
      of the colour scales) subtracts and divides them.
    - [rgb2hex] is modelled on float64 itself: a value is a finite
      double, an infinity or NaN, and its product with 255 is rounded to
      the nearest double before [np.round] and [int] see it.
    - A Python call that can raise returns [res A]: either [Ok a] or
      [Raise e] with the exception that escaped.
    - A [for] loop that appends to a list is a monadic fold that threads
      the list through the iterations.
    - An ordered [dict] used only for its key order (the process
      registry) is an association list. *)

From Stdlib Require Import ZArith QArith Qround Qabs Qpower.
From Stdlib Require Import String Ascii List Sorted.
From Stdlib Require Import Lia Lqa.
From stdpp Require Import base option list strings gmap.

Local Open Scope string_scope.
Local Open Scope list_scope.

(** ** Python runtime *)

Module Py.

(** The exceptions the module can meet. *)
Inductive exn : Type :=
| IndexError
| KeyError (key : string)
| NameError (name : string)
| TypeError
| ValueError
| KeyboardInterrupt
| OtherError (what : string).

Inductive res (A : Type) : Type :=
| Ok (a : A)
| Raise (e : exn).
Arguments Ok {A} a.
Arguments Raise {A} e.

Definition bind {A B} (m : res A) (k : A -> res B) : res B :=
  match m with
  | Ok a => k a
  | Raise e => Raise e
  end.

#[export] Instance res_ret : MRet res := @Ok.
#[export] Instance res_bind : MBind res := fun A B k m => bind m k.
#[export] Instance res_fmap : FMap res :=
  fun A B f m => bind m (fun a => Ok (f a)).

(** [xs[i]] for a non-negative index [i]. *)
Definition getitem {A} (xs : list A) (i : nat) : res A :=
  match xs !! i with
  | Some x => Ok x
  | None => Raise IndexError
  end.

(** [for x in xs: body], where the body updates the loop state [s]. *)
Fixpoint for_each {A S} (xs : list A) (body : A -> S -> res S) (s : S)
  : res S :=
  match xs with
  | [] => Ok s
  | x :: rest => s' ← body x s; for_each rest body s'
  end.

(** [range(n)]. *)
Definition range (n : nat) : list nat := seq 0 n.

(** [[f(x) for x in xs]]: the first exception escapes. *)
Fixpoint map_res {A B} (f : A -> res B) (xs : list A) : res (list B) :=
  match xs with
  | [] => Ok []
  | x :: rest => y ← f x; ys ← map_res f rest; Ok (y :: ys)
  end.

End Py.

Import Py.

(** ** Data model *)

(** A process registry: an insertion-ordered mapping from process id to
    metadata.  Only [processes.keys()] is used by the module. *)
Definition registry (M : Type) : Type := list (string * M).

Definition keys {M} (processes : registry M) : list string :=
  map fst processes.

(** A two-dimensional array, row by row; [F.shape[0]] is the number of
    rows and [F[i, j]] raises [IndexError] outside the array. *)
Definition matrix : Type := list (list Q).

Definition shape0 {A} (F : list A) : nat := length F.

(** [a.shape[1]]: the length of the second axis.  An array without rows
    is read as having no columns; the loops below use this length only
    while they iterate over rows that exist. *)
Definition shape1 {A} (F : list (list A)) : nat :=
  match F with
  | [] => 0
  | row :: _ => length row
  end.

Definition getitem2 (F : matrix) (i j : nat) : res Q :=
  row ← getitem F i; getitem row j.

(** [x > 0] on an array entry. *)
Definition gt0 (x : Q) : bool := negb (Qle_bool x 0).

(** One row of the dataframe built by [inputs_flows_as_dataframe]:
    columns ('source', 'target', 'material', 'value'). *)
Record edge : Type := Edge {
  source : string;
  target : string;
  material : string;
  value : Q
}.

(** One row of the dataframe built by [flows_from_trace]:
    columns ('source', 'target', 'material', 'sample', 'value'). *)
Record sample_edge : Type := SampleEdge {
  s_source : string;
  s_target : string;
  s_material : string;
  s_sample : nat;
  s_value : Q
}.

(** ** [inputs_flows_as_dataframe] *)

(** First loop: [for i in range(len(I)): if I[i] > 0: flows.append(...)]. *)
Definition inputs_loop (possible_inputs : list string) (I : list Q)
    (flows : list edge) : res (list edge) :=
  for_each (range (length I)) (fun i flows =>
    Ii ← getitem I i;
    if gt0 Ii then
      name ← getitem possible_inputs i;
      v ← getitem I i;
      Ok (flows ++ [Edge "inputs" name "?" v])
    else Ok flows) flows.

(** Second loop: the two nested loops over [range(Np)]. *)
Definition cells_loop (process_ids : list string) (Np : nat) (F : matrix)
    (flows : list edge) : res (list edge) :=
  for_each (range Np) (fun i flows =>
    for_each (range Np) (fun j flows =>
      Fij ← getitem2 F i j;
      if gt0 Fij then
        src ← getitem process_ids i;
        tgt ← getitem process_ids j;
        v ← getitem2 F i j;
        Ok (flows ++ [Edge src tgt "?" v])
      else Ok flows) flows) flows.

Definition inputs_flows_as_dataframe {M} (processes : registry M)
    (possible_inputs : list string) (I : list Q) (F : matrix)
    : res (list edge) :=
  let flows := [] in
  let Np := shape0 F in
  flows ← inputs_loop possible_inputs I flows;
  let process_ids := keys processes in
  cells_loop process_ids Np F flows.

(** ** Traces and [flows_from_trace] *)

(** One posterior sample: an inputs vector and a flow matrix. *)
Record sample : Type := Sample {
  sample_inputs : list Q;
  sample_F : matrix
}.

(** A trace: the ordered samples of the posterior. *)
Definition trace : Type := list sample.

(** The indices selected by the slice [start::step] of a sequence of
    length [len] (Python's slice adjustment with the stop left open). *)
Definition slice_indices (len : nat) (start step : Z) : res (list nat) :=
  let n := Z.of_nat len in
  if (step =? 0)%Z then Raise ValueError
  else if (0 <? step)%Z then
    let lo := if (start <? 0)%Z then Z.max (start + n) 0 else Z.min start n in
    let count := if (lo <? n)%Z then ((n - lo - 1) / step + 1)%Z else 0%Z in
    Ok (map (fun k => Z.to_nat (lo + Z.of_nat k * step))
            (seq 0 (Z.to_nat count)))
  else
    let lo :=
      if (start <? 0)%Z then Z.max (start + n) (-1) else Z.min start (n - 1) in
    let count := if (-1 <? lo)%Z then (lo / (- step) + 1)%Z else 0%Z in
    Ok (map (fun k => Z.to_nat (lo + Z.of_nat k * step))
            (seq 0 (Z.to_nat count))).

(** [xs[start::step]]. *)
Definition slice {A} (xs : list A) (start step : Z) : res (list A) :=
  idx ← slice_indices (length xs) start step;
  Ok (omap (M:=list) (fun i => xs !! i) idx).

(** [trace['inputs', nburn::thin]]: one row per retained sample. *)
Definition trace_inputs (t : trace) (nburn thin : Z)
    : res (list (list Q)) :=
  map sample_inputs <$> slice t nburn thin.

(** [trace['F', nburn::thin]]: one matrix per retained sample. *)
Definition trace_F (t : trace) (nburn thin : Z) : res (list matrix) :=
  map sample_F <$> slice t nburn thin.

Definition getitem3 (flows : list matrix) (i j k : nat) : res Q :=
  Fi ← getitem flows i; getitem2 Fi j k.

(** The first inner loop of [flows_from_trace], for sample [i]. *)
Definition sample_inputs_loop (possible_inputs : list string)
    (inputs : list (list Q)) (i : nat) (rows : list sample_edge)
    : res (list sample_edge) :=
  for_each (range (shape1 inputs)) (fun j rows =>
    x ← getitem2 inputs i j;
    if gt0 x then
      name ← getitem possible_inputs j;
      v ← getitem2 inputs i j;
      Ok (rows ++ [SampleEdge "inputs" name "?" i v])
    else Ok rows) rows.

(** The second inner loop of [flows_from_trace], for sample [i]. *)
Definition sample_cells_loop (process_ids : list string) (Np : nat)
    (flows : list matrix) (i : nat) (rows : list sample_edge)
    : res (list sample_edge) :=
  for_each (range Np) (fun j rows =>
    for_each (range Np) (fun k rows =>
      x ← getitem3 flows i j k;
      if gt0 x then
        src ← getitem process_ids j;
        tgt ← getitem process_ids k;
        v ← getitem3 flows i j k;
        Ok (rows ++ [SampleEdge src tgt "?" i v])
      else Ok rows) rows) rows.

(** The loop over the retained samples. *)
Definition samples_loop (process_ids possible_inputs : list string)
    (inputs : list (list Q)) (flows : list matrix) (Np : nat)
    (rows : list sample_edge) : res (list sample_edge) :=
  for_each (range (shape0 flows)) (fun i rows =>
    rows ← sample_inputs_loop possible_inputs inputs i rows;
    sample_cells_loop process_ids Np flows i rows) rows.

Definition flows_from_trace {M} (processes : registry M)
    (possible_inputs : list string) (t : trace) (nburn thin : Z)
    : res (list sample_edge) :=
  inputs ← trace_inputs t nburn thin;
  flows ← trace_F t nburn thin;
  let process_ids := keys processes in
  let Np := shape1 flows in
  let rows := [] in
  samples_loop process_ids possible_inputs inputs flows Np rows.

(** The defaults of the signature: [nburn=100, thin=10]. *)
Definition default_nburn : Z := 100.
Definition default_thin : Z := 10.

Definition demo_sample (a b : Q) : sample :=
  Sample [a; 0]%Q [[0; b]; [0; 0]]%Q.

Definition demo_trace : trace :=
  [demo_sample 1 2; demo_sample 3 0; demo_sample 0 4; demo_sample 5 6;
   demo_sample 7 8].

(** ** Notebook wrappers: [animate_samples] *)

(** Calls into the notebook front end (floweaver, ipywidgets, the clock)
    act on a world [W] and may raise; the world keeps the changes made
    before an exception escapes. *)
Definition io (W A : Type) : Type := W -> res A * W.

Definition io_ret {W A} (a : A) : io W A := fun w => (Ok a, w).

Definition io_bind {W A B} (m : io W A) (k : A -> io W B) : io W B :=
  fun w =>
    match m w with
    | (Ok a, w') => k a w'
    | (Raise e, w') => (Raise e, w')
    end.

#[export] Instance io_mret {W} : MRet (io W) := @io_ret W.
#[export] Instance io_mbind {W} : MBind (io W) :=
  fun A B k m => io_bind m k.

(** A pure computation run inside the notebook. *)
Definition lift {W A} (m : res A) : io W A := fun w => (m, w).

(** [try: body  except KeyboardInterrupt: handler]. *)
Definition try_except_KeyboardInterrupt {W A} (body handler : io W A)
    : io W A :=
  fun w =>
    match body w with
    | (Raise KeyboardInterrupt, w') => handler w'
    | r => r
    end.

(** [for x in xs: body] for a body that only acts on the world. *)
Fixpoint io_for {W A} (xs : list A) (body : A -> io W unit) : io W unit :=
  match xs with
  | [] => io_ret tt
  | x :: rest => io_bind (body x) (fun _ => io_for rest body)
  end.

(** [range(start, stop, step)] for a positive [step]. *)
Definition range3 (start stop step : nat) : list nat :=
  map (fun k => start + k * step)
      (seq 0 ((stop - start + (step - 1)) / step)).

(** The external calls of the animation, as the source makes them. *)
Class Notebook (W Sdd Dataset Widget : Type) : Type := {
  (** [Dataset(df)] *)
  make_dataset : list edge -> io W Dataset;
  (** [weave(sdd, dataset).to_widget(width=.., height=.., margins=..)] *)
  weave_to_widget : Sdd -> Dataset -> nat -> nat -> io W Widget;
  (** [widget.links = new_widget.links] on the displayed widget *)
  set_links : Widget -> io W unit;
  (** [widget.set_scale()] on the displayed widget *)
  set_scale : io W unit;
  (** [time.sleep(seconds)] *)
  sleep : Q -> io W unit
}.

Section AnimateSamples.
Context {W Sdd Dataset Widget M : Type} `{!Notebook W Sdd Dataset Widget}.
Variables (processes : registry M) (possible_inputs : list string).
Variables (t : trace) (sdd : Sdd) (rescale : bool).

(** The closure [dataset(isamp)]. *)
Definition dataset (isamp : nat) : io W Dataset :=
  s ← lift (getitem t isamp);
  let I := sample_inputs s in
  let F := sample_F s in
  df ← lift (inputs_flows_as_dataframe processes possible_inputs I F);
  make_dataset df.

(** The closure [update(isamp)]. *)
Definition update (isamp : nat) : io W unit :=
  d ← dataset isamp;
  new_widget ← weave_to_widget sdd d 600 300;
  set_links new_widget.

(** One iteration of the loop in [play]. *)
Definition play_step (i : nat) : io W unit :=
  _ ← update i;
  _ ← (if rescale then set_scale else io_ret tt);
  sleep (1 # 2).

(** The body of the [try] in [play]. *)
Definition play_loop : io W unit :=
  io_for (range3 0 (length t) 10) play_step.

(** The click handler [play(_)]. *)
Definition play : io W unit :=
  try_except_KeyboardInterrupt play_loop (io_ret tt).

End AnimateSamples.

(** A scripted notebook: the world is the list of calls still to be
    answered with an exception ([Some e]) or a normal return ([None]),
    together with the log of calls made so far. *)
Inductive call : Type :=
| CallDataset (rows : nat)
| CallWeave (width height : nat)
| CallSetLinks
| CallSetScale
| CallSleep (seconds : Q).

Definition script : Type := (list (option exn) * list call)%type.

Definition scripted {A} (c : call) (a : A) : io script A :=
  fun w =>
    match w with
    | (Some e :: pending, log) => (Raise e, (pending, log ++ [c]))
    | (None :: pending, log) => (Ok a, (pending, log ++ [c]))
    | ([], log) => (Ok a, ([], log ++ [c]))
    end.

#[export] Instance scripted_notebook : Notebook script unit unit unit := {
  make_dataset df := scripted (CallDataset (length df)) tt;
  weave_to_widget _ _ w h := scripted (CallWeave w h) tt;
  set_links _ := scripted CallSetLinks tt;
  set_scale := scripted CallSetScale tt;
  sleep s := scripted (CallSleep s) tt
}.

(** ** Credible-interval scales *)

(** [pm.hpd(x)]: the bounds of the credible interval of the samples, as
    an array; computed by pymc3. *)
Class Pymc3 : Type := pm_hpd : list Q -> res (list Q).

(** The [measures] mapping handed to a scale by floweaver. *)
Abbreviation measures := (gmap string (list Q)).

(** [measures[key]]. *)
Definition measures_getitem (m : measures) (key : string) : res (list Q) :=
  match m !! key with
  | Some v => Ok v
  | None => Raise (KeyError key)
  end.

(** [x.mean()] of a one-dimensional array. *)
Definition mean (x : list Q) : Q :=
  (foldr Qplus 0 x / inject_Z (Z.of_nat (length x)))%Q.

Section HpdRange.
Context `{!Pymc3}.

Definition hpd_range (x : list Q) : res Q :=
  hpd ← pm_hpd x;
  hi ← getitem hpd 1;
  lo ← getitem hpd 0;
  Ok (hi - lo)%Q.
End HpdRange.

(** The two subclasses of [floweaver.QuantitativeScale] the module
    defines; each overrides [get_value] only. *)
Inductive scale_class : Type :=
| AbsoluteHPDRange
| NormalisedHPDRange.

(** A scale object: its class and the state every
    [floweaver.QuantitativeScale] carries. *)
Record quantitative_scale (Palette : Type) : Type := QuantitativeScale {
  cls : scale_class;
  attr : string;
  palette : Palette;
  domain : option (Q * Q)
}.
Arguments QuantitativeScale {Palette} cls attr palette domain.
Arguments cls {Palette} _.
Arguments attr {Palette} _.
Arguments palette {Palette} _.
Arguments domain {Palette} _.

Module AbsoluteHPDRangeScale.
Section Methods.
Context `{!Pymc3} {Palette Link : Type}.

Definition get_value (self : quantitative_scale Palette) (link : Link)
    (m : measures) : res Q :=
  v ← measures_getitem m "value";
  hpd_range v.
End Methods.
End AbsoluteHPDRangeScale.

Module NormalisedHPDRangeScale.
Section Methods.
Context `{!Pymc3} {Palette Link : Type}.

Definition get_value (self : quantitative_scale Palette) (link : Link)
    (m : measures) : res Q :=
  v ← measures_getitem m "value";
  r ← hpd_range v;
  v' ← measures_getitem m "value";
  Ok (r / mean v')%Q.
End Methods.
End NormalisedHPDRangeScale.

(** [scale.get_value(link, measures)], dispatched on the class of the
    scale object. *)
Definition get_value `{!Pymc3} {Palette Link : Type}
    (self : quantitative_scale Palette) (link : Link) (m : measures)
    : res Q :=
  match cls self with
  | AbsoluteHPDRange => AbsoluteHPDRangeScale.get_value self link m
  | NormalisedHPDRange => NormalisedHPDRangeScale.get_value self link m
  end.

(** A stand-in for [pm.hpd] used to run the scales: the smallest and the
    largest sample. *)
Definition Qmin_list (x : list Q) : Q :=
  foldr (fun a b => if Qle_bool a b then a else b) (hd 0%Q x) x.
Definition Qmax_list (x : list Q) : Q :=
  foldr (fun a b => if Qle_bool a b then b else a) (hd 0%Q x) x.
Definition full_range_hpd : Pymc3 :=
  fun x => Ok [Qmin_list x; Qmax_list x].

(** ** [rgb2hex] *)

(** [np.round]: to the nearest integer, halves to the even neighbour. *)
Definition np_round (x : Q) : Z :=
  let f := Qfloor x in
  match ((x - inject_Z f) ?= 1 # 2)%Q with
  | Lt => f
  | Gt => (f + 1)%Z
  | Eq => if Z.even f then f else (f + 1)%Z
  end.

Definition hex_digit (d : N) : ascii :=
  nth (N.to_nat d) (list_ascii_of_string "0123456789abcdef") "0"%char.

Fixpoint to_hex_aux (fuel : nat) (n : N) (acc : string) : string :=
  match fuel with
  | O => acc
  | S fuel' =>
      let acc' := String (hex_digit (n mod 16)) acc in
      if (n / 16 =? 0)%N then acc' else to_hex_aux fuel' (n / 16)%N acc'
  end.

(** The lower-case hexadecimal digits of [n], without prefix. *)
Definition to_hex (n : N) : string :=
  to_hex_aux (S (N.to_nat (N.size n))) n "".

Fixpoint zeros (k : nat) : string :=
  match k with
  | O => ""
  | S k' => String "0" (zeros k')
  end.

(** ['%02x' % z]: sign, then the digits padded with zeros so that the
    whole field is at least two characters wide. *)
Definition format_02x (z : Z) : string :=
  let sign := if (z <? 0)%Z then "-" else "" in
  let digits := to_hex (Z.abs_N z) in
  let width := String.length sign + String.length digits in
  (sign ++ zeros (2 - width) ++ digits)%string.

(** ['#%02x%02x%02x' % args]: exactly three arguments are consumed. *)
Definition format_hash_02x3 (args : list Z) : res string :=
  match args with
  | [r; g; b] =>
      Ok ("#" ++ format_02x r ++ format_02x g ++ format_02x b)%string
  | _ => Raise TypeError
  end.

(** A float64: a finite double, given by the rational it denotes, an
    infinity or NaN.  The sign of a zero is not kept: nothing below
    depends on it. *)
Inductive float64 : Type :=
| Finite (q : Q)
| PosInf
| NegInf
| NaN.

(** floor(log2 x) of a positive rational. *)
Definition Qlog2 (x : Q) : Z :=
  let k := (Z.log2 (Qnum x) - Z.log2 (Zpos (Qden x)))%Z in
  if Qle_bool (2 ^ k) x then k else (k - 1)%Z.

(** The rounding of every float64 operation: to the nearest double, ties
    to the even significand; 53 significant bits, exponents from -1074
    on, and overflow to an infinity from 2^1024 on. *)
Definition round64 (x : Q) : float64 :=
  if Qeq_bool x 0 then Finite 0
  else
    let e := Z.max (Qlog2 (Qabs x) - 52) (-1074) in
    let y := (inject_Z (np_round (x * 2 ^ (- e))) * 2 ^ e)%Q in
    if Qle_bool (2 ^ 1024) (Qabs y) then
      if Qle_bool 0 x then PosInf else NegInf
    else Finite y.

(** The sign of a float64 that is not NaN: -1, 0 or 1. *)
Definition f64_sgn (a : float64) : Z :=
  match a with
  | Finite x => Z.sgn (Qnum x)
  | PosInf => 1
  | NegInf => -1
  | NaN => 0
  end.

(** [a * b] on float64. *)
Definition f64_mul (a b : float64) : float64 :=
  match a, b with
  | NaN, _ | _, NaN => NaN
  | Finite x, Finite y => round64 (x * y)
  | _, _ =>
      match (f64_sgn a * f64_sgn b)%Z with
      | Z0 => NaN
      | Zpos _ => PosInf
      | Zneg _ => NegInf
      end
  end.

(** [np.round(x)] on a float64: an integral double, or [x] itself when
    it is not finite. *)
Definition np_round64 (x : float64) : float64 :=
  match x with
  | Finite q => Finite (inject_Z (np_round q))
  | _ => x
  end.

(** [int(x)]: truncation; NaN and the infinities have no integer. *)
Definition py_int (x : float64) : res Z :=
  match x with
  | Finite q => Ok (if Qle_bool 0 q then Qfloor q else Qceiling q)
  | NaN => Raise ValueError
  | PosInf | NegInf => Raise (OtherError "OverflowError")
  end.

(** [int(np.round(val * 255))] for one component. *)
Definition component (val : float64) : res Z :=
  py_int (np_round64 (f64_mul val (Finite 255))).

Definition rgb2hex (rgb : list float64) : res string :=
  args ← map_res component (take 3 rgb);
  format_hash_02x3 args.

(** ** Name resolution *)

(** The names bound at the top level of the module once it is imported:
    its imports, functions and classes, in source order. *)
Definition module_globals : list string :=
  ["time"; "np"; "pd"; "ipywidgets"; "Dataset"; "weave"; "qualitative";
   "sequential"; "inputs_flows_as_dataframe"; "flows_from_trace";
   "show_sample"; "animate_samples"; "floweaver"; "SankeyWidget"; "mpl";
   "plt"; "pm"; "hpd_range"; "rgb2hex"; "weave_variance"; "show_variance";
   "save_variance"; "_calc_variance"; "AbsoluteHPDRangeScale";
   "NormalisedHPDRangeScale"; "colorbar";
   "__name__"; "__doc__"; "__package__"; "__loader__"; "__spec__";
   "__file__"; "__cached__"; "__builtins__"].

(** The names of Python's [builtins] module. *)
Definition builtin_names : list string :=
  ["abs"; "aiter"; "all"; "anext"; "any"; "ascii"; "bin"; "bool";
   "breakpoint"; "bytearray"; "bytes"; "callable"; "chr"; "classmethod";
   "compile"; "complex"; "copyright"; "credits"; "delattr"; "dict"; "dir";
   "divmod"; "enumerate"; "eval"; "exec"; "exit"; "filter"; "float";
   "format"; "frozenset"; "getattr"; "globals"; "hasattr"; "hash"; "help";
   "hex"; "id"; "input"; "int"; "isinstance"; "issubclass"; "iter"; "len";
   "license"; "list"; "locals"; "map"; "max"; "memoryview"; "min"; "next";
   "object"; "oct"; "open"; "ord"; "pow"; "print"; "property"; "quit";
   "range"; "repr"; "reversed"; "round"; "set"; "setattr"; "slice";
   "sorted"; "staticmethod"; "str"; "sum"; "super"; "tuple"; "type";
   "vars"; "zip"; "__import__"; "__build_class__"; "__debug__";
   "None"; "True"; "False"; "Ellipsis"; "NotImplemented";
   "BaseException"; "Exception"; "ArithmeticError"; "AssertionError";
   "AttributeError"; "BlockingIOError"; "BrokenPipeError"; "BufferError";
   "BytesWarning"; "ChildProcessError"; "ConnectionAbortedError";
   "ConnectionError"; "ConnectionRefusedError"; "ConnectionResetError";
   "DeprecationWarning"; "EOFError"; "EnvironmentError";
   "FileExistsError"; "FileNotFoundError"; "FloatingPointError";
   "FutureWarning"; "GeneratorExit"; "IOError"; "ImportError";
   "ImportWarning"; "IndentationError"; "IndexError"; "InterruptedError";
   "IsADirectoryError"; "KeyError"; "KeyboardInterrupt"; "LookupError";
   "MemoryError"; "ModuleNotFoundError"; "NameError";
   "NotADirectoryError"; "NotImplementedError"; "OSError";
   "OverflowError"; "PendingDeprecationWarning"; "PermissionError";
   "ProcessLookupError"; "RecursionError"; "ReferenceError";
   "ResourceWarning"; "RuntimeError"; "RuntimeWarning";
   "StopAsyncIteration"; "StopIteration"; "SyntaxError"; "SyntaxWarning";
   "SystemError"; "SystemExit"; "TabError"; "TimeoutError"; "TypeError";
   "UnboundLocalError"; "UnicodeDecodeError"; "UnicodeEncodeError";
   "UnicodeError"; "UnicodeTranslateError"; "UnicodeWarning";
   "UserWarning"; "ValueError"; "Warning"; "ZeroDivisionError"].

Definition mem (name : string) (names : list string) : bool :=
  existsb (String.eqb name) names.

(** How the compiler resolves a name read in a function body: a
    parameter or a name assigned in the body is a local; every other name
    is looked up in the module's globals, then in the builtins. *)
Inductive binding : Type :=
| Local
| Global
| Builtin.

Definition resolve (locals : list string) (name : string) : res binding :=
  if mem name locals then Ok Local
  else if mem name module_globals then Ok Global
  else if mem name builtin_names then Ok Builtin
  else Raise (NameError name).

(** ** [weave_variance] and [show_variance] *)

(** The calls into floweaver, palettable and matplotlib, and the object
    bound to each global or builtin name. *)
Class Floweaver (Sdd Flows Palette Sankey Widget PyObj : Type) : Type := {
  (** [sequential.Reds_9.mpl_colormap] *)
  Reds_9 : Palette;
  (** [weave(sdd, flows, measures=.., link_width=.., link_color=scale)];
      weaving may fix the domain of the scale it is given. *)
  weave : Sdd -> Flows -> quantitative_scale Palette ->
          res (Sankey * quantitative_scale Palette);
  (** [scale.get_domain()] *)
  get_domain : quantitative_scale Palette -> res (Q * Q);
  (** [result.to_widget(width=.., height=.., margins=..)] *)
  to_widget : Sankey -> nat -> nat -> res Widget;
  (** the object a name that resolves is bound to *)
  name_value : string -> PyObj;
  (** [obj.domain[k]] on such an object *)
  domain_item : PyObj -> nat -> res Q;
  (** [colorbar(cmap, vmin, vmax, label)] *)
  colorbar : option Palette -> Q -> Q -> string -> res unit
}.

(** [scale.set_domain(vlim)] *)
Definition set_domain {Palette} (scale : quantitative_scale Palette)
    (vlim : Q * Q) : quantitative_scale Palette :=
  QuantitativeScale (cls scale) (attr scale) (palette scale) (Some vlim).

Section Variance.
Context {Sdd Flows Palette Sankey Widget PyObj : Type}
        `{!Floweaver Sdd Flows Palette Sankey Widget PyObj}.

Definition weave_variance (flows : Flows) (sdd : Sdd) (normed : bool)
    (vlim : option (Q * Q)) (palette : option Palette)
    : res (Sankey * (Q * Q)) :=
  let palette := match palette with
                 | None => Reds_9
                 | Some p => p
                 end in
  let scale :=
    if normed then QuantitativeScale NormalisedHPDRange "value" palette None
    else QuantitativeScale AbsoluteHPDRange "value" palette None in
  let scale := match vlim with
               | Some v => set_domain scale v
               | None => scale
               end in
  '(result, scale) ← weave sdd flows scale;
  d ← get_domain scale;
  Ok (result, d).

(** The parameters of [show_variance] and the names its body assigns. *)
Definition show_variance_locals : list string :=
  ["flows"; "sdd"; "normed"; "vlim"; "width"; "palette"; "result"].

(** Reading a name in the body of [show_variance]: the name is
    resolved first, and the read fails when it is bound nowhere. *)
Definition load_name (name : string) : res PyObj :=
  b ← resolve show_variance_locals name;
  Ok (name_value name).

Definition show_variance (flows : Flows) (sdd : Sdd) (normed : bool)
    (vlim : option (Q * Q)) (width : nat) (palette : option Palette)
    : res Widget :=
  '(result, vlim) ← weave_variance flows sdd normed vlim palette;
  _ ← load_name "colorbar";
  scale0 ← load_name "scale";
  vmin ← domain_item scale0 0;
  scale1 ← load_name "scale";
  vmax ← domain_item scale1 1;
  let label := ("Credible interval width" ++
                (if normed then " (normalised)" else " [Mt]"))%string in
  _ ← colorbar palette vmin vmax label;
  to_widget result width 400.

End Variance.

(** A floweaver whose every call succeeds, to run the wrappers. *)
#[export] Instance trivial_floweaver
  : Floweaver unit unit unit unit unit unit := {
  Reds_9 := tt;
  weave _ _ scale :=
    Ok (tt, match domain scale with
            | Some _ => scale
            | None => set_domain scale (0, 1)%Q
            end);
  get_domain scale := match domain scale with
                      | Some d => Ok d
                      | None => Raise (OtherError "no domain")
                      end;
  to_widget _ _ _ := Ok tt;
  name_value _ := tt;
  domain_item _ _ := Ok 0%Q;
  colorbar _ _ _ _ := Ok tt
}.

(** ** The edge lists in closed form

    These definitions restate, in the words of the design notes, what the
    two conversions are meant to emit; the theorems below compare them
    with the loops above. *)

Definition entry (I : list Q) (i : nat) : Q := nth i I 0%Q.

Definition cell (F : matrix) (i j : nat) : Q := nth j (nth i F []) 0%Q.

Definition name_at (names : list string) (i : nat) : string :=
  nth i names "".

(** One record per positive input entry, in increasing index. *)
Definition input_records (possible_inputs : list string) (I : list Q)
    : list edge :=
  map (fun i => Edge "inputs" (name_at possible_inputs i) "?" (entry I i))
      (List.filter (fun i => gt0 (entry I i)) (seq 0 (length I))).

(** One record per positive cell of the leading [Np] x [Np] block, in
    row-major order. *)
Definition cell_records (process_ids : list string) (Np : nat) (F : matrix)
    : list edge :=
  map (fun ij : nat * nat =>
         Edge (name_at process_ids ij.1) (name_at process_ids ij.2) "?"
              (cell F ij.1 ij.2))
      (List.filter (fun ij : nat * nat => gt0 (cell F ij.1 ij.2))
                   (list_prod (seq 0 Np) (seq 0 Np))).

(** [F] is an [n] x [n] array. *)
Definition square (n : nat) (F : matrix) : Prop :=
  length F = n /\ Forall (fun row => length row = n) F.

(** The invariant of the data model: one name per input entry, and one
    registry key per row and per column of the flow matrix. *)
Definition aligned {M} (processes : registry M)
    (possible_inputs : list string) (I : list Q) (F : matrix) : Prop :=
  length possible_inputs = length I /\ square (length (keys processes)) F.

(** The number of strictly positive entries of a vector, of a matrix. *)
Definition count_positive (xs : list Q) : nat :=
  length (List.filter gt0 xs).

Definition count_positive_cells (F : matrix) : nat :=
  list_sum (map count_positive F).

(** The rows of sample [i], in closed form. *)
Definition sample_input_rows (possible_inputs : list string)
    (inputs : list (list Q)) (i : nat) : list sample_edge :=
  map (fun j => SampleEdge "inputs" (name_at possible_inputs j) "?" i
                           (cell inputs i j))
      (List.filter (fun j => gt0 (cell inputs i j))
                   (seq 0 (shape1 inputs))).

Definition sample_cell_rows (process_ids : list string) (Np : nat)
    (flows : list matrix) (i : nat) : list sample_edge :=
  map (fun jk : nat * nat =>
         SampleEdge (name_at process_ids jk.1) (name_at process_ids jk.2)
                    "?" i (cell (nth i flows []) jk.1 jk.2))
      (List.filter (fun jk : nat * nat =>
                      gt0 (cell (nth i flows []) jk.1 jk.2))
                   (list_prod (seq 0 Np) (seq 0 Np))).

(** The rows of one retained sample: input-derived, then matrix-derived. *)
Definition sample_rows (process_ids possible_inputs : list string)
    (inputs : list (list Q)) (flows : list matrix) (Np i : nat)
    : list sample_edge :=
  sample_input_rows possible_inputs inputs i
  ++ sample_cell_rows process_ids Np flows i.

(** Where a record comes from: an entry of the inputs vector, named
    after the input at the same index, or a cell of the flow matrix,
    named after the processes of its row and column. *)
Definition edge_from (possible_inputs process_ids : list string)
    (I : list Q) (F : matrix) (r : edge) : Prop :=
  (exists i, I !! i = Some (value r) /\ source r = "inputs" /\
             target r = name_at possible_inputs i) \/
  (exists i j row, F !! i = Some row /\ row !! j = Some (value r) /\
                   source r = name_at process_ids i /\
                   target r = name_at process_ids j).

(** The four columns a sampled row shares with a plain record. *)
Definition drop_sample (r : sample_edge) : edge :=
  Edge (s_source r) (s_target r) (s_material r) (s_value r).

(** Two lower-case hexadecimal digits: the high and the low nibble of a
    byte. *)
Definition hex2 (z : Z) : string :=
  String (hex_digit (Z.to_N z / 16)) (String (hex_digit (Z.to_N z mod 16)) "").

(** Every sample of the trace has [ni] inputs and an [np] x [np] flow
    matrix, as the arrays of a trace have. *)
Definition uniform (ni np : nat) (t : trace) : Prop :=
  Forall (fun s => length (sample_inputs s) = ni /\ square np (sample_F s)) t.

(** ** The remaining wrappers *)

(** [xs[i]] for a Python integer: a negative index counts from the end. *)
Definition getitem_z {A} (xs : list A) (i : Z) : res A :=
  let n := Z.of_nat (length xs) in
  let k := if (i <? 0)%Z then (i + n)%Z else i in
  if (k <? 0)%Z then Raise IndexError else getitem xs (Z.to_nat k).

(** What [show_sample] needs besides the calls of the animation. *)
Class SampleView (W Widget : Type) : Type := {
  (** [trace['inputs', burn:].mean(axis=0)], computed by pymc3 and numpy *)
  mean_inputs : trace -> Z -> res (list Q);
  (** [trace['F', burn:].mean(axis=0)] *)
  mean_F : trace -> Z -> res matrix;
  (** [widget.value = new_widget.value] on the widget passed in *)
  set_value : Widget -> Widget -> io W unit
}.

Section ShowSample.
Context {W Sdd Dataset Widget M : Type} `{!Notebook W Sdd Dataset Widget}
        `{!SampleView W Widget}.
Variables (processes : registry M) (possible_inputs : list string).
Variables (t : trace) (sdd : Sdd).

(** The dataset of [show_sample]: the posterior mean after the burn-in
    when [isamp is None], sample [isamp] otherwise. *)
Definition show_sample_dataset (isamp : option Z) (burn : Z)
    : io W Dataset :=
  match isamp with
  | None =>
      I ← lift (mean_inputs t burn);
      F ← lift (mean_F t burn);
      df ← lift (inputs_flows_as_dataframe processes possible_inputs I F);
      make_dataset df
  | Some isamp =>
      s ← lift (getitem_z t isamp);
      let I := sample_inputs s in
      let F := sample_F s in
      df ← lift (inputs_flows_as_dataframe processes possible_inputs I F);
      make_dataset df
  end.

(** [show_sample]; the result is [None] when a widget was passed in and
    updated in place. *)
Definition show_sample (isamp : option Z) (widget : option Widget)
    (burn : Z) : io W (option Widget) :=
  d ← show_sample_dataset isamp burn;
  new_widget ← weave_to_widget sdd d 600 300;
  match widget with
  | None => io_ret (Some new_widget)
  | Some shown => _ ← set_value shown new_widget; io_ret None
  end.

End ShowSample.

(** The default of the signature: [burn=500]. *)
Definition default_burn : Z := 500.

(** The widgets [animate_samples] builds around the diagram. *)
Class Controls (W Widget Button Box : Type) : Type := {
  (** [ipywidgets.Button(description=..)] *)
  make_button : string -> io W Button;
  (** [ipywidgets.VBox([button, widget])] *)
  make_vbox : Button -> Widget -> io W Box;
  (** [button.on_click(handler)] *)
  on_click : Button -> io W unit -> io W unit
}.

Section AnimateSamplesBox.
Context {W Sdd Dataset Widget Button Box M : Type}
        `{!Notebook W Sdd Dataset Widget} `{!Controls W Widget Button Box}.
Variables (processes : registry M) (possible_inputs : list string).
Variables (t : trace) (sdd : Sdd) (rescale : bool).

Definition animate_samples : io W Box :=
  d ← dataset processes possible_inputs t 0;
  widget ← weave_to_widget sdd d 800 500;
  button ← make_button "Go";
  box ← make_vbox button widget;
  _ ← on_click button (play processes possible_inputs t sdd rescale);
  io_ret box.

End AnimateSamplesBox.

(** The controls of the scripted notebook: building them always succeeds
    and leaves the log as it is. *)
#[export] Instance scripted_controls : Controls script unit unit unit := {
  make_button _ := io_ret tt;
  make_vbox _ _ := io_ret tt;
  on_click _ _ := io_ret tt
}.

(** ** [_calc_variance] *)

(** The graph side of floweaver, and the colour map. *)
Class SankeyView (Sdd Flows Dataset Graph Groups Palette Value : Type)
    : Type := {
  (** [floweaver.Dataset(flows)] *)
  new_dataset : Flows -> res Dataset;
  (** [floweaver.sankey_view(sdd, dataset)] *)
  sankey_view : Sdd -> Dataset -> res (Graph * Groups);
  (** the [data] of [G.edges(data=True)], in iteration order *)
  edges_data : Graph -> list measures;
  (** [palette(x)]: the colour of [x], as RGBA components *)
  palette_call : Palette -> Q -> res (list float64);
  (** [print('Range: {:.3g} to {:.3g}'.format(vmin, vmax))] *)
  print_range : Q -> Q -> res unit;
  (** [floweaver.graph_to_sankey(G, groups, sample='mean',
      flow_color=get_color)] *)
  graph_to_sankey : Graph -> Groups -> (measures -> res string) -> res Value
}.

(** [values.min()] and [values.max()]: numpy refuses an empty array. *)
Definition np_min (values : list Q) : res Q :=
  match values with
  | [] => Raise ValueError
  | _ => Ok (Qmin_list values)
  end.

Definition np_max (values : list Q) : res Q :=
  match values with
  | [] => Raise ValueError
  | _ => Ok (Qmax_list values)
  end.

Section CalcVariance.
Context `{!Pymc3} {Sdd Flows Dataset Graph Groups Palette Value : Type}
        `{!SankeyView Sdd Flows Dataset Graph Groups Palette Value}.

(** The two [hue] lambdas. *)
Definition hue (normed : bool) (data : measures) : res Q :=
  if normed then
    v ← measures_getitem data "value";
    r ← hpd_range v;
    v' ← measures_getitem data "value";
    Ok (r / mean v')%Q
  else
    v ← measures_getitem data "value";
    hpd_range v.

(** The [get_color] lambda, once [vmin] and [vmax] are known. *)
Definition get_color (normed : bool) (palette : Palette) (vmin vmax : Q)
    (data : measures) : res string :=
  h ← hue normed data;
  rgba ← palette_call palette ((h - vmin) / (vmax - vmin))%Q;
  rgb2hex rgba.

Definition _calc_variance (flows : Flows) (sdd : Sdd) (normed : bool)
    (vlim : option (Q * Q)) (palette : Palette) : res (Value * Q * Q) :=
  dataset ← new_dataset flows;
  '(G, groups) ← sankey_view sdd dataset;
  values ← map_res (hue normed) (edges_data G);
  '(vmin, vmax) ← match vlim with
                   | None =>
                       vmin ← np_min values;
                       vmax ← np_max values;
                       _ ← print_range vmin vmax;
                       Ok (vmin, vmax)
                   | Some (vmin, vmax) => Ok (vmin, vmax)
                   end;
  value ← graph_to_sankey G groups (get_color normed palette vmin vmax);
  Ok (value, vmin, vmax).

End CalcVariance.

(** ** Further closed forms *)

(** A plain record tagged with the position of its sample. *)
Definition with_sample (i : nat) (e : edge) : sample_edge :=
  SampleEdge (source e) (target e) (material e) i (value e).

(** Every positive input entry has a name. *)
Definition inputs_named (possible_inputs : list string) (I : list Q)
    : Prop :=
  forall i, i < length I -> (0 < entry I i)%Q -> i < length possible_inputs.

(** Every row of [F] reaches over the [length F] columns the loops read. *)
Definition block_present (F : matrix) : Prop :=
  Forall (fun row => length F <= length row) F.

(** The row and the column of every positive cell have a process id. *)
Definition cells_named (process_ids : list string) (F : matrix) : Prop :=
  forall i j, i < length F -> j < length F -> (0 < cell F i j)%Q ->
              i < length process_ids /\ j < length process_ids.

(** The calls one frame of the animation makes on the scripted notebook,
    for a sample that converts to [rows] records. *)
Definition frame_calls (rescale : bool) (rows : nat) : list call :=
  [CallDataset rows; CallWeave 600 300; CallSetLinks]
  ++ (if rescale then [CallSetScale] else [])
  ++ [CallSleep (1 # 2)].

(** The condition under which iteration [i] of the first loop returns. *)
Definition input_step_ok (possible_inputs : list string) (I : list Q)
    (i : nat) : Prop :=
  gt0 (entry I i) = true -> i < length possible_inputs.

(** The condition under which the inner iteration for cell [(i, j)]
    returns: the cell exists and, when positive, both ids exist. *)
Definition cell_step_ok (process_ids : list string) (F : matrix)
    (i j : nat) : Prop :=
  getitem2 F i j = Ok (cell F i j) /\
  (gt0 (cell F i j) = true ->
   i < length process_ids /\ j < length process_ids).

(** The records of one sample, as [inputs_flows_as_dataframe] lists
    them. *)
Definition sample_records (process_ids possible_inputs : list string)
    (s : sample) : list edge :=
  input_records possible_inputs (sample_inputs s)
  ++ cell_records process_ids (length (sample_F s)) (sample_F s).

(** The number of records sample [i] of the trace converts to. *)
Definition frame_rows (process_ids possible_inputs : list string)
    (t : trace) (i : nat) : nat :=
  length (sample_records process_ids possible_inputs
            (nth i t (Sample [] []))).

(** A stand-in for the posterior means, on rationals, and an in-place
    update that always succeeds, to run [show_sample] on the scripted
    notebook. *)
Definition column_mean (rows : list (list Q)) (j : nat) : Q :=
  mean (map (fun row => nth j row 0%Q) rows).

#[export] Instance scripted_sample_view : SampleView script unit := {
  mean_inputs t burn :=
    kept ← slice t burn 1;
    let inputs := map sample_inputs kept in
    Ok (map (column_mean inputs) (seq 0 (shape1 inputs)));
  mean_F t burn :=
    kept ← slice t burn 1;
    let flows := map sample_F kept in
    Ok (map (fun j =>
               map (fun k => mean (map (fun F => cell F j k) flows))
                   (seq 0 (shape1 flows)))
            (seq 0 (shape1 flows)));
  set_value _ _ := io_ret tt
}.

(** A graph given by the data of its edges, with a grey palette, to run
    [_calc_variance]: colouring asks [get_color] for every edge. *)
#[export] Instance edge_list_view
  : SankeyView unit (list measures) (list measures) (list measures) unit
      unit (list string) := {
  new_dataset flows := Ok flows;
  sankey_view _ dataset := Ok (dataset, tt);
  edges_data G := G;
  palette_call _ x := Ok [Finite x; Finite x; Finite x; Finite 1];
  print_range _ _ := Ok tt;
  graph_to_sankey G _ flow_color := map_res flow_color G
}.

(** ** The closures of [weave_variance] *)

Definition Qsum (x : list Q) : Q := foldr Qplus 0%Q x.

(** The index of [group.groupby('sample')]: the samples present in the
    group, each once, in increasing order. *)
Definition sample_keys (group : list sample_edge) : list nat :=
  List.filter (fun k => existsb (fun r => Nat.eqb (s_sample r) k) group)
              (seq 0 (S (list_max (map s_sample group)))).

(** The sum of the values of the rows of sample [k]. *)
Definition sample_total (group : list sample_edge) (k : nat) : Q :=
  Qsum (map s_value (List.filter (fun r => Nat.eqb (s_sample r) k) group)).

(** The closure [measures(group)]:
    [group.groupby('sample').agg({'value': 'sum'})], returned as the
    array of the sums under the key 'value'. *)
Definition weave_variance_measures (group : list sample_edge) : measures :=
  {["value" := map (sample_total group) (sample_keys group)]}.


(** * Properties *)

(** ** Running the embedding *)

Example inputs_flows_example :
  inputs_flows_as_dataframe [("A", tt); ("B", tt)] ["x"; "y"] [5; 0]%Q
    [[0; 2]; [0; 0]]%Q
  = Ok [Edge "inputs" "x" "?" 5; Edge "A" "B" "?" 2].
Proof. reflexivity. Qed.

Example flows_from_trace_example :
  flows_from_trace [("A", tt); ("B", tt)] ["x"; "y"] demo_trace 1 2
  = Ok [SampleEdge "inputs" "x" "?" 0 3;
        SampleEdge "inputs" "x" "?" 1 5; SampleEdge "A" "B" "?" 1 6].
Proof. reflexivity. Qed.

Example slice_negative_step :
  slice [10; 11; 12; 13; 14]%Z (-2) (-2) = Ok [13; 11]%Z.
Proof. reflexivity. Qed.

Example range3_example : range3 0 25 10 = [0; 10; 20].
Proof. reflexivity. Qed.

Example play_interrupted_example :
  play [("A", tt); ("B", tt)] ["x"; "y"] (repeat (demo_sample 1 2) 25) tt
    false ([None; None; None; None; None; Some KeyboardInterrupt], [])
  = (Ok tt, ([], [CallDataset 2; CallWeave 600 300; CallSetLinks;
                  CallSleep (1 # 2); CallDataset 2; CallWeave 600 300])).
Proof. reflexivity. Qed.

Example rgb2hex_example :
  rgb2hex [Finite 1; Finite (1 # 2); Finite 0; Finite (3 # 10)]
  = Ok "#ff8000".
Proof. reflexivity. Qed.

Example rgb2hex_out_of_gamut :
  rgb2hex [Finite 2; Finite (-1 # 255); Finite 0] = Ok "#1fe-100".
Proof. reflexivity. Qed.

(** The double nearest to 1/10, and a double whose product with 255 is
    rounded down to 16.5 although the exact product is above it. *)
Example round64_tenth :
  exists q, round64 (1 # 10) = Finite q /\
            (q == 3602879701896397 # 36028797018963968)%Q.
Proof. eexists. split; [reflexivity|]. vm_compute. reflexivity. Qed.

Example component_double_rounding :
  component (Finite (4662550202454161 # 72057594037927936)) = Ok 16%Z /\
  np_round ((4662550202454161 # 72057594037927936) * 255) = 17%Z.
Proof. split; vm_compute; reflexivity. Qed.

Example rgb2hex_nan :
  rgb2hex [Finite 0; NaN; Finite 0] = Raise ValueError.
Proof. vm_compute. reflexivity. Qed.

Example rgb2hex_inf :
  rgb2hex [Finite 0; Finite 0; NegInf] = Raise (OtherError "OverflowError").
Proof. vm_compute. reflexivity. Qed.

Example np_round_half_even :
  map np_round [1 # 2; 3 # 2; 5 # 2; -1 # 2; 7 # 4]%Q = [0; 2; 2; 0; 2]%Z.
Proof. reflexivity. Qed.

(** With the default burn-in of 100 a five-sample trace retains nothing. *)
Example flows_from_trace_defaults :
  flows_from_trace [("A", tt); ("B", tt)] ["x"; "y"] demo_trace
    default_nburn default_thin
  = Ok [].
Proof. reflexivity. Qed.

(** A registry shorter than the matrix: the lookup of the process id of
    a positive cell raises, and nothing catches it. *)
Example inputs_flows_misaligned :
  inputs_flows_as_dataframe [("A", tt)] ["x"; "y"] [5; 0]%Q
    [[0; 2]; [0; 0]]%Q
  = Raise IndexError.
Proof. reflexivity. Qed.

Example play_other_error_escapes :
  play [("A", tt)] ["x"; "y"] (repeat (demo_sample 1 2) 25) tt false
    ([], [])
  = (Raise IndexError, ([], [])).
Proof. reflexivity. Qed.

Example get_value_dispatch :
  @get_value full_range_hpd unit unit
     (QuantitativeScale NormalisedHPDRange "value" tt None) tt
     {["value" := [2; 4; 9]%Q]}
  = Ok (7 / mean [2; 4; 9])%Q.
Proof. reflexivity. Qed.

Example show_variance_example :
  show_variance tt tt false None 800 None = Raise (NameError "scale").
Proof. reflexivity. Qed.


(** ** Loops that append *)

Section AppendLoops.
Context {A E : Type}.
Implicit Types (xs : list A) (s : list E) (f : A -> list E).

Lemma bind_Ok_inv {X Y} (m : res X) (k : X -> res Y) (y : Y) :
  m ≫= k = Ok y -> exists x, m = Ok x /\ k x = Ok y.
Proof. destruct m as [x|e]; [eauto | discriminate]. Qed.

(** A loop whose body appends [f x] appends [flat_map f xs]. *)
Lemma for_each_appends f body xs s :
  (forall x s, In x xs -> body x s = Ok (s ++ f x)) ->
  for_each xs body s = Ok (s ++ flat_map f xs).
Proof.
  revert s. induction xs as [|x xs IH]; intros s Hbody; simpl.
  - by rewrite app_nil_r.
  - rewrite Hbody by (by left). simpl.
    change (for_each xs body (s ++ f x)
            = Ok (s ++ f x ++ flat_map f xs)).
    rewrite IH, <- app_assoc; [done|].
    intros; apply Hbody; by right.
Qed.

(** Conversely, if the body can only append [f x], a loop that
    completes has appended [flat_map f xs]. *)
Lemma for_each_appended f body xs s out :
  (forall x s s', In x xs -> body x s = Ok s' -> s' = s ++ f x) ->
  for_each xs body s = Ok out ->
  out = s ++ flat_map f xs.
Proof.
  revert s. induction xs as [|x xs IH]; intros s Hbody; simpl.
  - intros [= <-]. by rewrite app_nil_r.
  - intros (s' & Hs' & Hrest)%bind_Ok_inv.
    apply Hbody in Hs' as ->; [|by left].
    apply IH in Hrest as ->; [by rewrite <- app_assoc|].
    intros; eapply Hbody; [by right | done].
Qed.

Lemma flat_map_guard (p : A -> bool) (g : A -> E) xs :
  flat_map (fun x => if p x then [g x] else []) xs
  = map g (List.filter p xs).
Proof.
  induction xs as [|x xs IH]; simpl; [done|].
  destruct (p x); simpl; by rewrite IH.
Qed.
End AppendLoops.

Lemma flat_map_list_prod {A B E} (f : A * B -> list E) (xs : list A)
    (ys : list B) :
  flat_map (fun x => flat_map (fun y => f (x, y)) ys) xs
  = flat_map f (list_prod xs ys).
Proof.
  induction xs as [|x xs IH]; simpl; [done|].
  rewrite flat_map_app, IH. f_equal.
  clear IH. induction ys as [|y ys IH]; simpl; [done|]. by rewrite IH.
Qed.

(** ** Indexing *)

Lemma getitem_nth {A} (xs : list A) (i : nat) (d : A) :
  i < length xs -> getitem xs i = Ok (nth i xs d).
Proof.
  intros Hi. unfold getitem.
  destruct (lookup_lt_is_Some_2 xs i Hi) as [x Hx]. rewrite Hx.
  f_equal. symmetry. by apply nth_lookup_Some.
Qed.

Lemma getitem_Ok {A} (xs : list A) (i : nat) (x : A) :
  getitem xs i = Ok x <-> xs !! i = Some x.
Proof.
  unfold getitem. destruct (xs !! i); split; intros H; by inversion H.
Qed.

Lemma getitem_Ok_nth {A} (xs : list A) (i : nat) (x d : A) :
  getitem xs i = Ok x -> x = nth i xs d /\ i < length xs.
Proof.
  intros H%getitem_Ok. split.
  - symmetry. by apply nth_lookup_Some.
  - by apply lookup_lt_Some in H.
Qed.

Lemma getitem2_Ok (F : matrix) (i j : nat) (x : Q) :
  getitem2 F i j = Ok x <->
  exists row, F !! i = Some row /\ row !! j = Some x.
Proof.
  unfold getitem2. split.
  - intros (row & Hrow%getitem_Ok & Hx%getitem_Ok)%bind_Ok_inv. eauto.
  - intros (row & Hrow%getitem_Ok & Hx%getitem_Ok). by rewrite Hrow.
Qed.

Lemma getitem2_Ok_cell (F : matrix) (i j : nat) (x : Q) :
  getitem2 F i j = Ok x -> x = cell F i j.
Proof.
  intros (row & Hrow & Hx)%getitem2_Ok. unfold cell.
  rewrite (nth_lookup_Some _ _ _ _ Hrow). symmetry.
  by apply nth_lookup_Some.
Qed.

Lemma getitem2_cell (F : matrix) (n i j : nat) :
  square n F -> i < n -> j < n -> getitem2 F i j = Ok (cell F i j).
Proof.
  intros [Hlen Hrows] Hi Hj. unfold getitem2, cell.
  rewrite (getitem_nth F i []) by lia. simpl.
  apply getitem_nth.
  rewrite Forall_forall in Hrows. rewrite (Hrows (nth i F [])); [done|].
  apply list_elem_of_In, nth_In. lia.
Qed.

Lemma gt0_spec (x : Q) : gt0 x = true <-> (0 < x)%Q.
Proof.
  unfold gt0. rewrite negb_true_iff, <- not_true_iff_false, Qle_bool_iff.
  split; [apply Qnot_le_lt | apply Qlt_not_le].
Qed.

(** ** [inputs_flows_as_dataframe]: the first loop *)

Lemma inputs_loop_appended possible_inputs I flows out :
  inputs_loop possible_inputs I flows = Ok out ->
  out = flows ++ input_records possible_inputs I.
Proof.
  unfold inputs_loop, input_records. rewrite <- flat_map_guard.
  apply for_each_appended. intros i s s' _ Hbody.
  apply bind_Ok_inv in Hbody as (Ii & HIi & Hbody).
  apply (getitem_Ok_nth _ _ _ 0%Q) in HIi as [-> _]. fold (entry I i) in *.
  destruct (gt0 (entry I i)); [|inversion Hbody; by rewrite app_nil_r].
  apply bind_Ok_inv in Hbody as (name & Hname & Hbody).
  apply bind_Ok_inv in Hbody as (v & Hv & Hbody).
  apply (getitem_Ok_nth _ _ _ "") in Hname as [-> _].
  apply (getitem_Ok_nth _ _ _ 0%Q) in Hv as [-> _].
  by inversion Hbody.
Qed.

Lemma inputs_loop_returns possible_inputs I flows :
  length I <= length possible_inputs ->
  inputs_loop possible_inputs I flows
  = Ok (flows ++ input_records possible_inputs I).
Proof.
  intros Hlen. unfold inputs_loop, input_records.
  rewrite <- flat_map_guard.
  apply for_each_appends. intros i s [_ Hi]%in_seq. simpl in Hi.
  rewrite (getitem_nth I i 0%Q) by done. simpl. fold (entry I i).
  destruct (gt0 (entry I i)); [|by rewrite app_nil_r].
  by rewrite (getitem_nth possible_inputs i "") by lia.
Qed.

(** ** [inputs_flows_as_dataframe]: the nested loops *)

Lemma cells_loop_appended process_ids Np F flows out :
  cells_loop process_ids Np F flows = Ok out ->
  out = flows ++ cell_records process_ids Np F.
Proof.
  unfold cells_loop, cell_records. rewrite <- flat_map_guard.
  rewrite <- flat_map_list_prod.
  apply for_each_appended. intros i s s' _.
  apply for_each_appended. clear s s'. intros j s s' _ Hbody.
  apply bind_Ok_inv in Hbody as (Fij & HFij & Hbody).
  apply getitem2_Ok_cell in HFij as ->. simpl.
  destruct (gt0 (cell F i j)); [|inversion Hbody; by rewrite app_nil_r].
  apply bind_Ok_inv in Hbody as (src & Hsrc & Hbody).
  apply bind_Ok_inv in Hbody as (tgt & Htgt & Hbody).
  apply bind_Ok_inv in Hbody as (v & Hv & Hbody).
  apply (getitem_Ok_nth _ _ _ "") in Hsrc as [-> _].
  apply (getitem_Ok_nth _ _ _ "") in Htgt as [-> _].
  apply getitem2_Ok_cell in Hv as ->.
  by inversion Hbody.
Qed.

Lemma cells_loop_returns process_ids F flows :
  square (length process_ids) F ->
  cells_loop process_ids (length F) F flows
  = Ok (flows ++ cell_records process_ids (length F) F).
Proof.
  intros Hsq. pose proof Hsq as [Hlen _].
  unfold cells_loop, cell_records. rewrite <- flat_map_guard.
  rewrite <- flat_map_list_prod.
  apply for_each_appends. intros i s [_ Hi]%in_seq.
  apply for_each_appends. clear s. intros j s [_ Hj]%in_seq.
  simpl in Hi, Hj.
  rewrite (getitem2_cell F (length process_ids)) by (done || lia). simpl.
  destruct (gt0 (cell F i j)); [|by rewrite app_nil_r].
  by rewrite !(getitem_nth process_ids _ "") by lia.
Qed.

(** Whenever the conversion returns, it returns the closed form. *)
Lemma inputs_flows_as_dataframe_Ok {M} (processes : registry M)
    possible_inputs I F df :
  inputs_flows_as_dataframe processes possible_inputs I F = Ok df ->
  df = input_records possible_inputs I
       ++ cell_records (keys processes) (length F) F.
Proof.
  unfold inputs_flows_as_dataframe, shape0.
  intros (flows & Hin & Hcells)%bind_Ok_inv.
  apply inputs_loop_appended in Hin as ->.
  by apply cells_loop_appended in Hcells as ->.
Qed.

Lemma inputs_flows_as_dataframe_aligned {M} (processes : registry M)
    possible_inputs I F :
  aligned processes possible_inputs I F ->
  inputs_flows_as_dataframe processes possible_inputs I F
  = Ok (input_records possible_inputs I
        ++ cell_records (keys processes) (length F) F).
Proof.
  intros [Hin Hsq]. unfold inputs_flows_as_dataframe, shape0.
  rewrite inputs_loop_returns by lia. simpl.
  by rewrite cells_loop_returns.
Qed.

Lemma input_records_material possible_inputs I :
  Forall (fun r => material r = "?") (input_records possible_inputs I).
Proof.
  unfold input_records. apply List.Forall_forall.
  by intros r (i & <- & _)%in_map_iff.
Qed.

Lemma cell_records_material process_ids Np F :
  Forall (fun r => material r = "?") (cell_records process_ids Np F).
Proof.
  unfold cell_records. apply List.Forall_forall.
  by intros r (ij & <- & _)%in_map_iff.
Qed.

(** C1. Under the alignment invariant of the data model,
    [inputs_flows_as_dataframe] returns first one record
    ('inputs', possible_inputs[i], '?', I[i]) per index [i] with
    [I[i] > 0], in increasing [i], then one record
    (process_ids[i], process_ids[j], '?', F[i,j]) per cell with
    [F[i,j] > 0], in row-major order, where [process_ids] are the keys of
    the registry in iteration order; every record has material '?'. *)
Theorem inputs_flows_as_dataframe_spec {M} (processes : registry M)
    (possible_inputs : list string) (I : list Q) (F : matrix) :
  aligned processes possible_inputs I F ->
  inputs_flows_as_dataframe processes possible_inputs I F
  = Ok (map (fun i => Edge "inputs" (name_at possible_inputs i) "?"
                           (entry I i))
            (List.filter (fun i => gt0 (entry I i)) (seq 0 (length I)))
        ++
        map (fun ij : nat * nat =>
               Edge (name_at (keys processes) ij.1)
                    (name_at (keys processes) ij.2) "?" (cell F ij.1 ij.2))
            (List.filter (fun ij : nat * nat => gt0 (cell F ij.1 ij.2))
               (list_prod (seq 0 (length F)) (seq 0 (length F)))))
  /\ forall df,
       inputs_flows_as_dataframe processes possible_inputs I F = Ok df ->
       Forall (fun r => material r = "?") df.
Proof.
  intros Hal. split.
  - exact (inputs_flows_as_dataframe_aligned _ _ _ _ Hal).
  - intros df ->%inputs_flows_as_dataframe_Ok.
    apply Forall_app; split;
      [apply input_records_material | apply cell_records_material].
Qed.

Lemma inputs_flows_as_dataframe_spec_witness :
  inputs_flows_as_dataframe [("P", 1%nat); ("Q", 2%nat)] ["u"; "v"; "w"]
    [0; 3 # 2; 4]%Q [[1; 0]; [-2; 7]]%Q
  = Ok [Edge "inputs" "v" "?" (3 # 2); Edge "inputs" "w" "?" 4;
        Edge "P" "P" "?" 1; Edge "Q" "Q" "?" 7].
Proof.
  refine (proj1 (inputs_flows_as_dataframe_spec
                   [("P", 1%nat); ("Q", 2%nat)] ["u"; "v"; "w"]
                   [0; 3 # 2; 4]%Q [[1; 0]; [-2; 7]]%Q _)).
  split; [reflexivity|].
  split; [reflexivity|].
  repeat constructor.
Defined.

(** C5. On the registry {A:_, B:_} with possible inputs [x, y], inputs
    [5, 0] and F = [[0, 2], [0, 0]], the conversion returns exactly the
    records ('inputs', 'x', '?', 5) and ('A', 'B', '?', 2), in that
    order, whatever the metadata of the two processes. *)
Theorem inputs_flows_as_dataframe_AB {M} (a b : M) :
  inputs_flows_as_dataframe [("A", a); ("B", b)] ["x"; "y"] [5; 0]%Q
    [[0; 2]; [0; 0]]%Q
  = Ok [Edge "inputs" "x" "?" 5; Edge "A" "B" "?" 2].
Proof. reflexivity. Qed.

(** ** Counting the matrix-derived records *)

Lemma map_nth_seq {A} (l : list A) (d : A) :
  map (fun i => nth i l d) (seq 0 (length l)) = l.
Proof.
  induction l as [|x l IH]; simpl; [done|].
  f_equal. rewrite <- seq_shift, map_map. exact IH.
Qed.

Lemma filter_indices_length {A} (q : A -> bool) (l : list A) (d : A) :
  length (List.filter (fun i => q (nth i l d)) (seq 0 (length l)))
  = length (List.filter q l).
Proof.
  transitivity
    (length (List.filter q (map (fun i => nth i l d) (seq 0 (length l))))).
  - rewrite filter_map_swap. by rewrite length_map.
  - by rewrite map_nth_seq.
Qed.

Lemma filter_list_prod_length {A B} (p : A * B -> bool) (xs : list A)
    (ys : list B) :
  length (List.filter p (list_prod xs ys))
  = list_sum (map (fun x => length (List.filter (fun y => p (x, y)) ys)) xs).
Proof.
  induction xs as [|x xs IH]; simpl; [done|].
  rewrite List.filter_app, length_app, IH. f_equal.
  rewrite filter_map_swap. by rewrite length_map.
Qed.

Lemma cell_records_length process_ids n F :
  square n F ->
  length (cell_records process_ids n F) = count_positive_cells F.
Proof.
  intros [Hlen Hrows]. unfold cell_records, count_positive_cells.
  rewrite length_map.
  rewrite (filter_list_prod_length
             (fun ij : nat * nat => gt0 (cell F ij.1 ij.2))).
  transitivity
    (list_sum (map count_positive
                   (map (fun i => nth i F []) (seq 0 (length F)))));
    [|by rewrite map_nth_seq].
  rewrite map_map, Hlen.
  f_equal. apply map_ext_in. intros i [_ Hi]%in_seq. simpl in *.
  unfold cell, count_positive.
  rewrite List.Forall_forall in Hrows.
  rewrite <- (Hrows (nth i F [])) at 1 by (apply nth_In; lia).
  apply filter_indices_length.
Qed.

(** C3. For a square flow matrix aligned with the registry, the records
    that follow the input-derived ones are as many as the strictly
    positive cells of [F]. *)
Theorem matrix_records_count {M} (processes : registry M)
    (possible_inputs : list string) (I : list Q) (F : matrix) :
  aligned processes possible_inputs I F ->
  exists from_inputs from_matrix,
    inputs_loop possible_inputs I [] = Ok from_inputs /\
    inputs_flows_as_dataframe processes possible_inputs I F
    = Ok (from_inputs ++ from_matrix) /\
    length from_inputs = count_positive I /\
    length from_matrix = count_positive_cells F.
Proof.
  intros Hal. pose proof Hal as [Hin Hsq].
  exists (input_records possible_inputs I),
         (cell_records (keys processes) (length F) F).
  split; [rewrite inputs_loop_returns by lia; done|].
  split; [by apply inputs_flows_as_dataframe_aligned|].
  split.
  - unfold input_records, count_positive. rewrite length_map.
    apply filter_indices_length.
  - destruct Hsq as [Hlen Hrows]. apply cell_records_length.
    split; [done | by rewrite Hlen].
Qed.

Lemma matrix_records_count_witness :
  exists from_inputs from_matrix,
    inputs_loop ["u"; "v"] [3; 0]%Q [] = Ok from_inputs /\
    inputs_flows_as_dataframe [("P", tt); ("Q", tt)] ["u"; "v"] [3; 0]%Q
      [[1; 0]; [-2; 7]]%Q
    = Ok (from_inputs ++ from_matrix) /\
    length from_inputs = count_positive [3; 0]%Q /\
    length from_matrix = count_positive_cells [[1; 0]; [-2; 7]]%Q.
Proof.
  apply (matrix_records_count [("P", tt); ("Q", tt)] ["u"; "v"] [3; 0]%Q
           [[1; 0]; [-2; 7]]%Q).
  split; [reflexivity|].
  split; [reflexivity|].
  repeat constructor.
Defined.

(** ** [flows_from_trace]: the loops in closed form *)

Lemma getitem3_Ok_cell (flows : list matrix) (i j k : nat) (x : Q) :
  getitem3 flows i j k = Ok x -> x = cell (nth i flows []) j k.
Proof.
  unfold getitem3. intros (Fi & HFi & Hx)%bind_Ok_inv.
  apply (getitem_Ok_nth _ _ _ []) in HFi as [-> _].
  by apply getitem2_Ok_cell.
Qed.

Lemma sample_inputs_loop_appended possible_inputs inputs i rows out :
  sample_inputs_loop possible_inputs inputs i rows = Ok out ->
  out = rows ++ sample_input_rows possible_inputs inputs i.
Proof.
  unfold sample_inputs_loop, sample_input_rows. rewrite <- flat_map_guard.
  apply for_each_appended. intros j s s' _ Hbody.
  apply bind_Ok_inv in Hbody as (x & Hx & Hbody).
  apply getitem2_Ok_cell in Hx as ->.
  destruct (gt0 (cell inputs i j)); [|inversion Hbody; by rewrite app_nil_r].
  apply bind_Ok_inv in Hbody as (name & Hname & Hbody).
  apply bind_Ok_inv in Hbody as (v & Hv & Hbody).
  apply (getitem_Ok_nth _ _ _ "") in Hname as [-> _].
  apply getitem2_Ok_cell in Hv as ->.
  by inversion Hbody.
Qed.

Lemma sample_cells_loop_appended process_ids Np flows i rows out :
  sample_cells_loop process_ids Np flows i rows = Ok out ->
  out = rows ++ sample_cell_rows process_ids Np flows i.
Proof.
  unfold sample_cells_loop, sample_cell_rows. rewrite <- flat_map_guard.
  rewrite <- flat_map_list_prod.
  apply for_each_appended. intros j s s' _.
  apply for_each_appended. clear s s'. intros k s s' _ Hbody.
  apply bind_Ok_inv in Hbody as (x & Hx & Hbody).
  apply getitem3_Ok_cell in Hx as ->. simpl.
  destruct (gt0 (cell (nth i flows []) j k));
    [|inversion Hbody; by rewrite app_nil_r].
  apply bind_Ok_inv in Hbody as (src & Hsrc & Hbody).
  apply bind_Ok_inv in Hbody as (tgt & Htgt & Hbody).
  apply bind_Ok_inv in Hbody as (v & Hv & Hbody).
  apply (getitem_Ok_nth _ _ _ "") in Hsrc as [-> _].
  apply (getitem_Ok_nth _ _ _ "") in Htgt as [-> _].
  apply getitem3_Ok_cell in Hv as ->.
  by inversion Hbody.
Qed.

Lemma samples_loop_appended process_ids possible_inputs inputs flows Np
    rows out :
  samples_loop process_ids possible_inputs inputs flows Np rows = Ok out ->
  out = rows ++ flat_map (sample_rows process_ids possible_inputs inputs
                                      flows Np)
                         (seq 0 (length flows)).
Proof.
  unfold samples_loop, shape0, range.
  apply for_each_appended. intros i s s' _.
  intros (mid & Hmid & Hout)%bind_Ok_inv.
  apply sample_inputs_loop_appended in Hmid as ->.
  apply sample_cells_loop_appended in Hout as ->.
  unfold sample_rows. by rewrite <- app_assoc.
Qed.

Lemma fmap_Ok_inv {A B} (f : A -> B) (m : res A) (b : B) :
  f <$> m = Ok b -> exists a, m = Ok a /\ b = f a.
Proof. destruct m as [a|e]; [|discriminate]. intros [= <-]. eauto. Qed.

(** Whenever [flows_from_trace] returns, it returns the rows of the
    retained samples, sample after sample. *)
Lemma flows_from_trace_Ok {M} (processes : registry M) possible_inputs t
    nburn thin df :
  flows_from_trace processes possible_inputs t nburn thin = Ok df ->
  exists kept,
    slice t nburn thin = Ok kept /\
    df = flat_map (sample_rows (keys processes) possible_inputs
                     (map sample_inputs kept) (map sample_F kept)
                     (shape1 (map sample_F kept)))
                  (seq 0 (length kept)).
Proof.
  unfold flows_from_trace, trace_inputs, trace_F.
  intros (inputs & Hinputs & Hrest)%bind_Ok_inv.
  apply bind_Ok_inv in Hrest as (flows & Hflows & Hloop).
  apply fmap_Ok_inv in Hinputs as (kept & Hkept & ->).
  rewrite Hkept in Hflows. injection Hflows as <-.
  exists kept. split; [done|].
  apply samples_loop_appended in Hloop as ->.
  by rewrite length_map.
Qed.

(** ** Only positive entries become records *)

Lemma gt0_nth_lookup (l : list Q) (i : nat) :
  gt0 (nth i l 0%Q) = true -> l !! i = Some (nth i l 0%Q).
Proof.
  intros Hpos. destruct (nth_lookup_or_length l i 0%Q) as [|Hge]; [done|].
  rewrite nth_overflow in Hpos by lia. discriminate.
Qed.

Lemma gt0_cell_lookup (F : matrix) (i j : nat) :
  gt0 (cell F i j) = true ->
  F !! i = Some (nth i F []) /\ nth i F [] !! j = Some (cell F i j).
Proof.
  unfold cell. intros Hpos. split; [|by apply gt0_nth_lookup].
  destruct (nth_lookup_or_length F i []) as [|Hge]; [done|].
  rewrite (nth_overflow F) in Hpos by lia. by destruct j.
Qed.

Lemma map_lookup_inv {A B} (f : A -> B) (l : list A) (i : nat) (y : B) :
  map f l !! i = Some y -> exists x, l !! i = Some x /\ y = f x.
Proof.
  revert i. induction l as [|x l IH]; intros [|i] H; try discriminate.
  - injection H as <-. by exists x.
  - by apply IH.
Qed.

Lemma input_records_from possible_inputs process_ids I F :
  Forall (fun r => (0 < value r)%Q /\
                   edge_from possible_inputs process_ids I F r)
         (input_records possible_inputs I).
Proof.
  apply List.Forall_forall. unfold input_records.
  intros r (i & <- & [_ Hpos]%filter_In)%in_map_iff. simpl. split.
  - by apply gt0_spec.
  - left. exists i. by rewrite gt0_nth_lookup.
Qed.

Lemma cell_records_from possible_inputs process_ids I Np F :
  Forall (fun r => (0 < value r)%Q /\
                   edge_from possible_inputs process_ids I F r)
         (cell_records process_ids Np F).
Proof.
  apply List.Forall_forall. unfold cell_records.
  intros r ([i j] & <- & [_ Hpos]%filter_In)%in_map_iff. simpl in *. split.
  - by apply gt0_spec.
  - right. apply gt0_cell_lookup in Hpos as [Hrow Hcell]. simpl. eauto 10.
Qed.

Lemma sample_rows_from process_ids possible_inputs kept Np i :
  Forall (fun r =>
            s_sample r = i /\ (0 < s_value r)%Q /\
            exists s, kept !! i = Some s /\
                      edge_from possible_inputs process_ids
                        (sample_inputs s) (sample_F s) (drop_sample r))
         (sample_rows process_ids possible_inputs
            (map sample_inputs kept) (map sample_F kept) Np i).
Proof.
  apply Forall_app; split; apply List.Forall_forall.
  - unfold sample_input_rows.
    intros r (j & <- & [_ Hpos]%filter_In)%in_map_iff. simpl.
    split; [done|]. split; [by apply gt0_spec|].
    apply gt0_cell_lookup in Hpos as [Hrow Hcell].
    apply map_lookup_inv in Hrow as (s & Hs & Hrow).
    exists s. split; [done|].
    left. exists j. simpl. by rewrite <- Hrow.
  - unfold sample_cell_rows.
    intros r ([j k] & <- & [_ Hpos]%filter_In)%in_map_iff. simpl in *.
    split; [done|]. split; [by apply gt0_spec|].
    apply gt0_cell_lookup in Hpos as [Hrow Hcell].
    assert (map sample_F kept !! i = Some (nth i (map sample_F kept) []))
      as HFi.
    { destruct (nth_lookup_or_length (map sample_F kept) i []) as [|Hge];
        [done|].
      rewrite (nth_overflow (map sample_F kept)) in Hrow by lia.
      by destruct j. }
    apply map_lookup_inv in HFi as (s & Hs & HFi).
    exists s. split; [done|].
    right. exists j, k. simpl. rewrite <- HFi. eauto 10.
Qed.

Lemma flows_from_trace_from {M} (processes : registry M) possible_inputs
    t nburn thin rows :
  flows_from_trace processes possible_inputs t nburn thin = Ok rows ->
  exists kept,
    slice t nburn thin = Ok kept /\
    Forall (fun r =>
              (0 < s_value r)%Q /\
              exists s, kept !! s_sample r = Some s /\
                        edge_from possible_inputs (keys processes)
                          (sample_inputs s) (sample_F s)
                          (drop_sample r)) rows.
Proof.
  intros (kept & Hkept & ->)%flows_from_trace_Ok.
  exists kept. split; [done|].
  apply List.Forall_forall. intros r (i & _ & Hr)%in_flat_map.
  pose proof (sample_rows_from (keys processes) possible_inputs kept
                (shape1 (map sample_F kept)) i) as Hfrom.
  rewrite List.Forall_forall in Hfrom.
  destruct (Hfrom r Hr) as (<- & Hpos & Hs). by split.
Qed.

(** C2. Zero and negative entries never become records: every record
    returned by [inputs_flows_as_dataframe] carries the value of a
    strictly positive entry of [I] or cell of [F], and every row returned
    by [flows_from_trace] carries the value of a strictly positive entry
    of the retained sample it is tagged with. *)
Theorem only_positive_entries {M} (processes : registry M)
    (possible_inputs : list string) :
  (forall I F df,
     inputs_flows_as_dataframe processes possible_inputs I F = Ok df ->
     Forall (fun r => (0 < value r)%Q /\
                      edge_from possible_inputs (keys processes) I F r) df)
  /\
  (forall t nburn thin rows,
     flows_from_trace processes possible_inputs t nburn thin = Ok rows ->
     exists kept,
       slice t nburn thin = Ok kept /\
       Forall (fun r =>
                 (0 < s_value r)%Q /\
                 exists s, kept !! s_sample r = Some s /\
                           edge_from possible_inputs (keys processes)
                             (sample_inputs s) (sample_F s)
                             (drop_sample r)) rows).
Proof.
  split.
  - intros I F df ->%inputs_flows_as_dataframe_Ok.
    apply Forall_app; split;
      [apply input_records_from | apply cell_records_from].
  - intros t nburn thin rows. apply flows_from_trace_from.
Qed.

Lemma only_positive_entries_witness :
  Forall (fun r => (0 < value r)%Q)
         [Edge "inputs" "x" "?" 5; Edge "A" "B" "?" 2]
  /\
  Forall (fun r => (0 < s_value r)%Q)
         [SampleEdge "inputs" "x" "?" 0 3; SampleEdge "inputs" "x" "?" 1 5;
          SampleEdge "A" "B" "?" 1 6].
Proof.
  pose proof (only_positive_entries [("A", tt); ("B", tt)] ["x"; "y"])
    as [Hdf Hrows].
  split.
  - specialize (Hdf [5; 0]%Q [[0; 2]; [0; 0]]%Q _ eq_refl).
    apply (List.Forall_impl (P := fun r =>
             (0 < value r)%Q /\
             edge_from ["x"; "y"] (keys [("A", tt); ("B", tt)])
               [5; 0]%Q [[0; 2]; [0; 0]]%Q r)); [|exact Hdf].
    by intros r [Hpos _].
  - destruct (Hrows demo_trace 1%Z 2%Z _ eq_refl) as (kept & _ & Hall).
    apply (List.Forall_impl (P := fun r =>
             (0 < s_value r)%Q /\
             exists s, kept !! s_sample r = Some s /\
                       edge_from ["x"; "y"] (keys [("A", tt); ("B", tt)])
                         (sample_inputs s) (sample_F s) (drop_sample r)));
      [|exact Hall].
    by intros r [Hpos _].
Defined.

(** ** The order of the rows of [flows_from_trace] *)

Lemma StronglySorted_block (a : nat) (block rest : list nat) :
  Forall (fun k => k = a) block ->
  Forall (fun k => a <= k) rest ->
  StronglySorted le rest ->
  StronglySorted le (block ++ rest).
Proof.
  intros Hblock Hrest Hsorted.
  induction block as [|k block IH]; simpl; [done|].
  apply Forall_cons in Hblock as [Hk Hblock']. subst k.
  constructor; [by apply IH|].
  apply Forall_app; split; [|done].
  apply (List.Forall_impl (P := fun k => k = a)); [|done].
  intros k ->. lia.
Qed.

(** Blocks tagged with consecutive sample indices are sorted by tag. *)
Lemma tagged_blocks_sorted (f : nat -> list sample_edge) (a n : nat) :
  (forall i, Forall (fun r => s_sample r = i) (f i)) ->
  StronglySorted le (map s_sample (flat_map f (seq a n)))
  /\ Forall (fun k => a <= k) (map s_sample (flat_map f (seq a n))).
Proof.
  intros Htag. revert a. induction n as [|n IH]; intros a; simpl.
  - split; constructor.
  - destruct (IH (S a)) as [Hsorted Hge]. rewrite map_app.
    assert (Forall (fun k => k = a) (map s_sample (f a))) as Hblock.
    { apply List.Forall_map. exact (Htag a). }
    split.
    + apply (StronglySorted_block a); [done| |done].
      apply (List.Forall_impl (P := fun k => S a <= k)); [|done].
      intros k Hk. lia.
    + apply Forall_app; split.
      * apply (List.Forall_impl (P := fun k => k = a)); [|done].
        intros k ->. lia.
      * apply (List.Forall_impl (P := fun k => S a <= k)); [|done].
        intros k Hk. lia.
Qed.

Lemma sample_input_rows_tag possible_inputs inputs i :
  Forall (fun r => s_sample r = i)
         (sample_input_rows possible_inputs inputs i).
Proof.
  apply List.Forall_forall. unfold sample_input_rows.
  by intros r (j & <- & _)%in_map_iff.
Qed.

Lemma sample_cell_rows_tag process_ids Np flows i :
  Forall (fun r => s_sample r = i)
         (sample_cell_rows process_ids Np flows i).
Proof.
  apply List.Forall_forall. unfold sample_cell_rows.
  by intros r (jk & <- & _)%in_map_iff.
Qed.

(** C9. In the dataframe returned by [flows_from_trace] the 'sample'
    column is nondecreasing from the first row to the last: the rows are
    the blocks of samples 0, 1, 2, ... of the retained slice, one after
    the other, and inside the block of a sample the input-derived rows
    precede the matrix-derived rows. *)
Theorem flows_from_trace_order {M} (processes : registry M)
    (possible_inputs : list string) (t : trace) (nburn thin : Z)
    (rows : list sample_edge) :
  flows_from_trace processes possible_inputs t nburn thin = Ok rows ->
  StronglySorted le (map s_sample rows) /\
  exists kept,
    slice t nburn thin = Ok kept /\
    let inputs := map sample_inputs kept in
    let flows := map sample_F kept in
    let from_inputs := sample_input_rows possible_inputs inputs in
    let from_matrix :=
      sample_cell_rows (keys processes) (shape1 flows) flows in
    rows = flat_map (fun i => from_inputs i ++ from_matrix i)
                    (seq 0 (length kept)) /\
    forall i, Forall (fun r => s_sample r = i) (from_inputs i) /\
              Forall (fun r => s_sample r = i) (from_matrix i).
Proof.
  intros (kept & Hkept & ->)%flows_from_trace_Ok. split.
  - apply tagged_blocks_sorted. intros i. apply Forall_app; split;
      [apply sample_input_rows_tag | apply sample_cell_rows_tag].
  - exists kept. split; [done|]. simpl. split; [done|].
    intros i. split;
      [apply sample_input_rows_tag | apply sample_cell_rows_tag].
Qed.

Lemma flows_from_trace_order_witness :
  StronglySorted le
    (map s_sample
       [SampleEdge "inputs" "x" "?" 0 3; SampleEdge "inputs" "x" "?" 1 5;
        SampleEdge "A" "B" "?" 1 6]).
Proof.
  exact (proj1 (flows_from_trace_order [("A", tt); ("B", tt)] ["x"; "y"]
                  demo_trace 1 2 _ eq_refl)).
Defined.

(** ** The retained slice *)

Lemma map_lookup {A B} (f : A -> B) (l : list A) (i : nat) :
  map f l !! i = option_map f (l !! i).
Proof.
  revert i. induction l as [|x l IH]; intros [|i]; simpl; auto.
Qed.

(** Selecting valid positions keeps one element per position. *)
Lemma omap_lookup_valid {A} (xs : list A) (idx : list nat) (k : nat) :
  Forall (fun i => i < length xs) idx ->
  omap (M:=list) (fun i => xs !! i) idx !! k
  = idx !! k ≫= (fun i => xs !! i).
Proof.
  intros Hidx. revert k. induction Hidx as [|i idx Hi _ IH]; intros k.
  - done.
  - simpl. destruct (lookup_lt_is_Some_2 xs i Hi) as [x Hx]. rewrite Hx.
    destruct k as [|k]; simpl; [done|]. apply IH.
Qed.

Lemma omap_length_valid {A} (xs : list A) (idx : list nat) :
  Forall (fun i => i < length xs) idx ->
  length (omap (M:=list) (fun i => xs !! i) idx) = length idx.
Proof.
  induction 1 as [|i idx Hi _ IH]; simpl; [done|].
  destruct (lookup_lt_is_Some_2 xs i Hi) as [x Hx]. rewrite Hx. simpl.
  f_equal. exact IH.
Qed.

(** A slice only contains elements of the sequence. *)
Lemma slice_In {A} (xs : list A) (start step : Z) (kept : list A) :
  slice xs start step = Ok kept -> forall x, In x kept -> In x xs.
Proof.
  unfold slice. intros (idx & _ & [= <-])%bind_Ok_inv x Hx.
  apply list_elem_of_In in Hx.
  apply list_elem_of_omap in Hx as (i & _ & Hi).
  apply list_elem_of_In. by eapply list_elem_of_lookup_2.
Qed.

(** With a non-negative burn-in and a positive thinning step, position
    [i] of the slice is position [nburn + i * thin] of the sequence. *)
Lemma slice_lookup {A} (xs : list A) (nburn thin : Z) (kept : list A) :
  (0 <= nburn)%Z -> (0 < thin)%Z ->
  slice xs nburn thin = Ok kept ->
  forall i, i < length kept ->
            kept !! i = xs !! (Z.to_nat nburn + i * Z.to_nat thin).
Proof.
  intros Hburn Hthin. unfold slice, slice_indices.
  destruct (Z.eqb_spec thin 0) as [|_]; [lia|].
  destruct (Z.ltb_spec 0 thin) as [_|]; [|lia].
  destruct (Z.ltb_spec nburn 0) as [|_]; [lia|].
  set (n := Z.of_nat (length xs)).
  set (lo := Z.min nburn n).
  set (count := if (lo <? n)%Z then ((n - lo - 1) / thin + 1)%Z else 0%Z).
  simpl. intros [= <-] i.
  assert (forall k, k < Z.to_nat count ->
            (lo = nburn /\ lo + Z.of_nat k * thin < n)%Z) as Hbound.
  { intros k Hk. subst count. destruct (Z.ltb_spec lo n) as [Hlo|]; [|lia].
    split; [lia|].
    pose proof (Z.mul_div_le (n - lo - 1) thin Hthin).
    assert (Z.of_nat k <= (n - lo - 1) / thin)%Z by lia. nia. }
  assert (Forall (fun i => i < length xs)
            (map (fun k => Z.to_nat (lo + Z.of_nat k * thin))
                 (seq 0 (Z.to_nat count)))) as Hvalid.
  { apply List.Forall_map, List.Forall_forall.
    intros k [_ Hk]%in_seq. destruct (Hbound k) as [_ Hlt]; lia. }
  rewrite omap_length_valid, length_map, length_seq by done.
  intros Hi. rewrite omap_lookup_valid by done.
  rewrite map_lookup, lookup_seq_lt by done. simpl.
  destruct (Hbound i Hi) as [Hlo _]. f_equal. nia.
Qed.

Example slice_lookup_example :
  slice [0; 1; 2; 3; 4; 5; 6; 7; 8; 9; 10; 11]%nat 3 4 = Ok [3; 7; 11]%nat.
Proof. reflexivity. Qed.

(** ** Every retained sample is converted *)

Lemma uniform_slice ni np (t kept : trace) (nburn thin : Z) :
  uniform ni np t -> slice t nburn thin = Ok kept -> uniform ni np kept.
Proof.
  unfold uniform. rewrite !List.Forall_forall. intros Ht Hkept s Hs.
  apply Ht. by eapply slice_In.
Qed.

Lemma uniform_lookup ni np (kept : trace) (i : nat) (s : sample) :
  uniform ni np kept -> kept !! i = Some s ->
  length (sample_inputs s) = ni /\ square np (sample_F s).
Proof.
  unfold uniform. rewrite List.Forall_forall. intros Hu Hs.
  apply Hu, list_elem_of_In. by eapply list_elem_of_lookup_2.
Qed.

Lemma uniform_shape1 ni np (kept : trace) (i : nat) (s : sample) :
  uniform ni np kept -> kept !! i = Some s ->
  shape1 (map sample_inputs kept) = ni /\ shape1 (map sample_F kept) = np.
Proof.
  intros Hu Hs. destruct kept as [|s0 kept]; [done|]. simpl.
  destruct (uniform_lookup ni np (s0 :: kept) 0 s0 Hu eq_refl)
    as [Hni [Hnp _]].
  done.
Qed.

Lemma nth_map_lookup {A B} (f : A -> B) (l : list A) (i : nat) (x : A)
    (d : B) :
  l !! i = Some x -> nth i (map f l) d = f x.
Proof.
  intros Hx. apply nth_lookup_Some. by rewrite map_lookup, Hx.
Qed.

Lemma sample_input_rows_complete possible_inputs ni np kept i s j v :
  uniform ni np kept -> kept !! i = Some s ->
  sample_inputs s !! j = Some v -> (0 < v)%Q ->
  In (SampleEdge "inputs" (name_at possible_inputs j) "?" i v)
     (sample_input_rows possible_inputs (map sample_inputs kept) i).
Proof.
  intros Hu Hs Hv Hpos. unfold sample_input_rows.
  assert (cell (map sample_inputs kept) i j = v) as Hcell.
  { unfold cell. rewrite (nth_map_lookup _ _ _ s) by done.
    by apply nth_lookup_Some. }
  apply in_map_iff. exists j. rewrite Hcell. split; [done|].
  apply filter_In. split.
  - apply in_seq. destruct (uniform_shape1 _ _ _ _ _ Hu Hs) as [-> _].
    destruct (uniform_lookup _ _ _ _ _ Hu Hs) as [<- _].
    apply lookup_lt_Some in Hv. lia.
  - rewrite Hcell. by apply gt0_spec.
Qed.

Lemma sample_cell_rows_complete process_ids ni np kept i s j k row v :
  uniform ni np kept -> kept !! i = Some s ->
  sample_F s !! j = Some row -> row !! k = Some v -> (0 < v)%Q ->
  In (SampleEdge (name_at process_ids j) (name_at process_ids k) "?" i v)
     (sample_cell_rows process_ids np (map sample_F kept) i).
Proof.
  intros Hu Hs Hrow Hv Hpos. unfold sample_cell_rows.
  assert (cell (nth i (map sample_F kept) []) j k = v) as Hcell.
  { unfold cell. rewrite (nth_map_lookup _ _ _ s) by done.
    rewrite (nth_lookup_Some _ _ _ _ Hrow). by apply nth_lookup_Some. }
  apply in_map_iff. exists (j, k). simpl. rewrite Hcell. split; [done|].
  apply filter_In. simpl. split; [|rewrite Hcell; by apply gt0_spec].
  destruct (uniform_lookup _ _ _ _ _ Hu Hs) as [_ [Hlen Hrows]].
  apply in_prod; apply in_seq.
  - apply lookup_lt_Some in Hrow. lia.
  - rewrite List.Forall_forall in Hrows.
    assert (length row = np) as <-.
    { apply Hrows, list_elem_of_In. by eapply list_elem_of_lookup_2. }
    apply lookup_lt_Some in Hv. lia.
Qed.

(** C4. [flows_from_trace] converts exactly the samples of the slice
    [trace[nburn::thin]]: every row is tagged with a valid position of
    that slice and carries a positive entry of the sample at that
    position; with a non-negative burn-in and a positive thinning step,
    position [i] of the slice is sample [nburn + i * thin] of the trace;
    and every positive entry of every retained sample has its row. *)
Theorem flows_from_trace_samples {M} (processes : registry M)
    (possible_inputs : list string) (t : trace) (nburn thin : Z)
    (rows : list sample_edge) :
  flows_from_trace processes possible_inputs t nburn thin = Ok rows ->
  exists kept,
    slice t nburn thin = Ok kept /\
    Forall (fun r =>
              s_sample r < length kept /\
              exists s, kept !! s_sample r = Some s /\
                        edge_from possible_inputs (keys processes)
                          (sample_inputs s) (sample_F s) (drop_sample r))
           rows /\
    ((0 <= nburn)%Z -> (0 < thin)%Z ->
     forall i, i < length kept ->
               kept !! i = t !! (Z.to_nat nburn + i * Z.to_nat thin)) /\
    (forall ni np, uniform ni np t ->
     forall i s, kept !! i = Some s ->
       (forall j v, sample_inputs s !! j = Some v -> (0 < v)%Q ->
          In (SampleEdge "inputs" (name_at possible_inputs j) "?" i v)
             rows) /\
       (forall j k row v,
          sample_F s !! j = Some row -> row !! k = Some v -> (0 < v)%Q ->
          In (SampleEdge (name_at (keys processes) j)
                         (name_at (keys processes) k) "?" i v) rows)).
Proof.
  intros Hrows.
  destruct (flows_from_trace_from _ _ _ _ _ _ Hrows)
    as (kept & Hkept & Hfrom).
  exists kept. split; [done|]. split; [|split].
  - apply (List.Forall_impl (P := fun r =>
             (0 < s_value r)%Q /\
             exists s, kept !! s_sample r = Some s /\
                       edge_from possible_inputs (keys processes)
                         (sample_inputs s) (sample_F s) (drop_sample r)));
      [|done].
    intros r (_ & s & Hs & Hr). split; [|eauto].
    by apply lookup_lt_Some in Hs.
  - intros Hburn Hthin. by apply slice_lookup.
  - intros ni np Hu i s Hs.
    apply flows_from_trace_Ok in Hrows as (kept' & Hkept' & ->).
    rewrite Hkept in Hkept'. injection Hkept' as <-.
    pose proof (uniform_slice _ _ _ _ _ _ Hu Hkept) as Hk.
    pose proof (lookup_lt_Some _ _ _ Hs) as Hi.
    destruct (uniform_shape1 _ _ _ _ _ Hk Hs) as [_ ->].
    split.
    + intros j v Hv Hpos. apply in_flat_map. exists i.
      split; [apply in_seq; lia|]. apply in_or_app. left.
      by eapply sample_input_rows_complete.
    + intros j k row v Hrow Hv Hpos. apply in_flat_map. exists i.
      split; [apply in_seq; lia|]. apply in_or_app. right.
      by eapply sample_cell_rows_complete.
Qed.

Lemma flows_from_trace_samples_witness :
  exists kept,
    slice demo_trace 1 2 = Ok kept /\
    Forall (fun r => s_sample r < length kept)
           [SampleEdge "inputs" "x" "?" 0 3;
            SampleEdge "inputs" "x" "?" 1 5; SampleEdge "A" "B" "?" 1 6] /\
    forall i, i < length kept ->
              kept !! i = demo_trace !! (Z.to_nat 1 + i * Z.to_nat 2).
Proof.
  destruct (flows_from_trace_samples [("A", tt); ("B", tt)] ["x"; "y"]
              demo_trace 1 2 _ eq_refl)
    as (kept & Hkept & Hvalid & Hpos & _).
  exists kept. split; [exact Hkept|]. split.
  - apply (List.Forall_impl (P := fun r =>
             s_sample r < length kept /\
             exists s, kept !! s_sample r = Some s /\
                       edge_from ["x"; "y"] (keys [("A", tt); ("B", tt)])
                         (sample_inputs s) (sample_F s) (drop_sample r)));
      [|exact Hvalid].
    by intros r [Hlt _].
  - apply Hpos; lia.
Defined.

(** ** The click handler of [animate_samples] *)

Section PlayProperties.
Context {W Sdd Dataset Widget M : Type} `{!Notebook W Sdd Dataset Widget}.
Variables (processes : registry M) (possible_inputs : list string).
Variables (t : trace) (sdd : Sdd) (rescale : bool).

Lemma try_except_caught {A} (body handler : io W A) (w w' : W) :
  body w = (Raise KeyboardInterrupt, w') ->
  try_except_KeyboardInterrupt body handler w = handler w'.
Proof. unfold try_except_KeyboardInterrupt. by intros ->. Qed.

Lemma try_except_escapes {A} (body handler : io W A) (e : exn) (w w' : W) :
  e <> KeyboardInterrupt ->
  body w = (Raise e, w') ->
  try_except_KeyboardInterrupt body handler w = (Raise e, w').
Proof.
  unfold try_except_KeyboardInterrupt. intros He ->. by destruct e.
Qed.

(** The loop stops at the first iteration that raises, with the world
    as that iteration left it. *)
Lemma io_for_raises {A} (body : A -> io W unit) (before after : list A)
    (x : A) (e : exn) (w w1 w2 : W) :
  io_for before body w = (Ok tt, w1) ->
  body x w1 = (Raise e, w2) ->
  io_for (before ++ x :: after) body w = (Raise e, w2).
Proof.
  revert w. induction before as [|y before IH]; intros w; simpl.
  - intros [= <-] Hx. unfold io_bind. by rewrite Hx.
  - unfold io_bind. destruct (body y w) as [[[]|e'] w'].
    + apply IH.
    + discriminate.
Qed.

(** C7. A KeyboardInterrupt raised at any point of the animation loop,
    in any iteration and by any of its calls, is caught by [play],
    which then returns normally with the world as the interrupted
    iteration left it; no iteration follows.  Nothing else is handled:
    every other exception that escapes the loop escapes [play]. *)
Theorem play_handles_interrupt (w : W) :
  (forall before i after w1 w2,
     range3 0 (length t) 10 = before ++ i :: after ->
     io_for before (play_step processes possible_inputs t sdd rescale) w
     = (Ok tt, w1) ->
     play_step processes possible_inputs t sdd rescale i w1
     = (Raise KeyboardInterrupt, w2) ->
     play processes possible_inputs t sdd rescale w = (Ok tt, w2))
  /\
  (forall w',
     play_loop processes possible_inputs t sdd rescale w
     = (Raise KeyboardInterrupt, w') ->
     play processes possible_inputs t sdd rescale w = (Ok tt, w'))
  /\
  (forall e w',
     e <> KeyboardInterrupt ->
     play_loop processes possible_inputs t sdd rescale w = (Raise e, w') ->
     play processes possible_inputs t sdd rescale w = (Raise e, w')).
Proof.
  split; [|split].
  - intros before i after w1 w2 Hrange Hbefore Hstep. unfold play.
    rewrite (try_except_caught _ _ w w2); [done|].
    unfold play_loop. rewrite Hrange. by eapply io_for_raises.
  - intros w' Hloop. unfold play.
    by rewrite (try_except_caught _ _ w w').
  - intros e w' He Hloop. unfold play. by apply try_except_escapes.
Qed.
End PlayProperties.

Lemma play_handles_interrupt_witness :
  play [("A", tt); ("B", tt)] ["x"; "y"] (repeat (demo_sample 1 2) 25) tt
    false ([None; None; None; None; None; Some KeyboardInterrupt], [])
  = (Ok tt, ([], [CallDataset 2; CallWeave 600 300; CallSetLinks;
                  CallSleep (1 # 2); CallDataset 2; CallWeave 600 300])).
Proof.
  apply (proj1 (play_handles_interrupt [("A", tt); ("B", tt)] ["x"; "y"]
                  (repeat (demo_sample 1 2) 25) tt false
                  ([None; None; None; None; None; Some KeyboardInterrupt],
                   []))
           [0] 10 [20]
           ([None; Some KeyboardInterrupt],
            [CallDataset 2; CallWeave 600 300; CallSetLinks;
             CallSleep (1 # 2)])).
  - reflexivity.
  - reflexivity.
  - reflexivity.
Defined.

(** ** [show_variance] *)

Section ShowVarianceProperties.
Context {Sdd Flows Palette Sankey Widget PyObj : Type}
        `{!Floweaver Sdd Flows Palette Sankey Widget PyObj}.

(** [scale] is a local of [weave_variance] only: in the body of
    [show_variance] it resolves to nothing. *)
Lemma scale_unbound :
  resolve show_variance_locals "scale" = Raise (NameError "scale").
Proof. reflexivity. Qed.

Lemma colorbar_bound :
  resolve show_variance_locals "colorbar" = Ok Global.
Proof. reflexivity. Qed.

(** C8. Whenever [weave_variance] returns, [show_variance] raises
    NameError for the name [scale] before it returns; whatever
    [weave_variance] does, [show_variance] never returns a widget. *)
Theorem show_variance_raises_NameError (flows : Flows) (sdd : Sdd)
    (normed : bool) (vlim : option (Q * Q)) (width : nat)
    (palette : option Palette) (r : Sankey * (Q * Q)) :
  weave_variance flows sdd normed vlim palette = Ok r ->
  show_variance flows sdd normed vlim width palette
  = Raise (NameError "scale")
  /\ forall flows' sdd' normed' vlim' width' palette' widget,
       show_variance flows' sdd' normed' vlim' width' palette'
       <> Ok widget.
Proof.
  intros Hweave. split.
  - unfold show_variance. rewrite Hweave. by destruct r.
  - intros flows' sdd' normed' vlim' width' palette' widget.
    unfold show_variance.
    destruct (weave_variance flows' sdd' normed' vlim' palette')
      as [[result d]|e]; discriminate.
Qed.
End ShowVarianceProperties.

Lemma show_variance_raises_NameError_witness :
  show_variance tt tt true (Some (0, 2)%Q) 800 None
  = Raise (NameError "scale").
Proof.
  exact (proj1 (show_variance_raises_NameError tt tt true (Some (0, 2)%Q)
                  800 None (tt, (0, 2)%Q) eq_refl)).
Defined.

(** ** The two credible-interval scales *)

Section ScaleProperties.
Context `{!Pymc3} {Palette Link : Type}.

(** C6. On measures whose 'value' samples have a nonzero mean, the
    normalised scale returns what the absolute scale returns, divided
    by that mean, and raises whenever the absolute scale raises; both
    are the credible-interval range of [measures['value']]. *)
Theorem normalised_is_absolute_over_mean
    (self_a self_n : quantitative_scale Palette) (link : Link)
    (m : measures) (vals : list Q) :
  m !! "value" = Some vals ->
  ~ (mean vals == 0)%Q ->
  NormalisedHPDRangeScale.get_value self_n link m
  = (fun a => (a / mean vals)%Q)
      <$> AbsoluteHPDRangeScale.get_value self_a link m
  /\ AbsoluteHPDRangeScale.get_value self_a link m = hpd_range vals.
Proof.
  intros Hvals _.
  unfold NormalisedHPDRangeScale.get_value,
         AbsoluteHPDRangeScale.get_value, measures_getitem.
  rewrite Hvals. simpl. split; [|done].
  by destruct (hpd_range vals).
Qed.
End ScaleProperties.

Lemma normalised_is_absolute_over_mean_witness :
  @NormalisedHPDRangeScale.get_value full_range_hpd unit unit
     (QuantitativeScale NormalisedHPDRange "value" tt None) tt
     {["value" := [2; 4; 9]%Q]}
  = (fun a => (a / mean [2; 4; 9])%Q)
      <$> @AbsoluteHPDRangeScale.get_value full_range_hpd unit unit
            (QuantitativeScale AbsoluteHPDRange "value" tt None) tt
            {["value" := [2; 4; 9]%Q]}.
Proof.
  refine (proj1 (@normalised_is_absolute_over_mean full_range_hpd unit unit
                   _ _ tt {["value" := [2; 4; 9]%Q]} [2; 4; 9]%Q _ _)).
  - reflexivity.
  - intros H. vm_compute in H. discriminate.
Defined.

(** ** [rgb2hex] *)

Lemma np_round_byte (x : Q) :
  (0 <= x)%Q -> (x <= 255)%Q -> (0 <= np_round x <= 255)%Z.
Proof.
  intros H0 H255. unfold np_round.
  pose proof (Qfloor_le x) as Hfl.
  pose proof (Qlt_floor x) as Hlt.
  assert (0 <= Qfloor x)%Z as Hf0.
  { change 0%Z with (Qfloor 0). by apply Qfloor_resp_le. }
  assert (Qfloor x <= 255)%Z as Hf255.
  { change 255%Z with (Qfloor 255). by apply Qfloor_resp_le. }
  assert ((1 # 2 <= x - inject_Z (Qfloor x))%Q -> (Qfloor x < 255)%Z)
    as Hhalf.
  { intros Hge. rewrite Zlt_Qlt. change (inject_Z 255) with 255%Q. lra. }
  destruct (Qcompare_spec (x - inject_Z (Qfloor x)) (1 # 2)) as [He|Hl|Hg].
  - destruct (Z.even (Qfloor x)); [lia|].
    assert (Qfloor x < 255)%Z by (apply Hhalf; rewrite He; apply Qle_refl).
    lia.
  - lia.
  - assert (Qfloor x < 255)%Z by (apply Hhalf; by apply Qlt_le_weak).
    lia.
Qed.

Lemma format_02x_byte (z : Z) :
  (0 <= z <= 255)%Z -> format_02x z = hex2 z.
Proof.
  intros Hz.
  assert (forallb (fun n => String.eqb (format_02x (Z.of_nat n))
                                       (hex2 (Z.of_nat n)))
                  (seq 0 256) = true) as Hall by (vm_compute; reflexivity).
  rewrite forallb_forall in Hall.
  specialize (Hall (Z.to_nat z)). rewrite Z2Nat.id in Hall by lia.
  apply String.eqb_eq, Hall, in_seq. lia.
Qed.

(** *** Rounding to a double *)

(** Rounding to the nearest integer never crosses an integer. *)
Lemma np_round_le_Z (x : Q) (n : Z) :
  (x <= inject_Z n)%Q -> (np_round x <= n)%Z.
Proof.
  intros Hx. unfold np_round.
  pose proof (Qfloor_le x) as Hfl.
  assert (Qfloor x <= n)%Z as Hf.
  { rewrite <- (Qfloor_Z n). by apply Qfloor_resp_le. }
  destruct (Z.eq_dec (Qfloor x) n) as [E|E].
  - rewrite E in *.
    destruct (Qcompare_spec (x - inject_Z n) (1 # 2)) as [He|Hl|Hg];
      [lra | lia | lra].
  - destruct (x - inject_Z (Qfloor x) ?= 1 # 2)%Q;
      [destruct (Z.even (Qfloor x))| |]; lia.
Qed.

Lemma np_round_ge_Z (x : Q) (n : Z) :
  (inject_Z n <= x)%Q -> (n <= np_round x)%Z.
Proof.
  intros Hx. unfold np_round.
  assert (n <= Qfloor x)%Z as Hf.
  { rewrite <- (Qfloor_Z n). by apply Qfloor_resp_le. }
  destruct (x - inject_Z (Qfloor x) ?= 1 # 2)%Q;
    [destruct (Z.even (Qfloor x))| |]; lia.
Qed.

Lemma pow2_pos (e : Z) : (0 < 2 ^ e)%Q.
Proof. by apply Qpower_0_lt. Qed.

Lemma pow2_inject (e : Z) : (0 <= e)%Z -> (2 ^ e == inject_Z (2 ^ e))%Q.
Proof. intros He. by rewrite Zpower_Qpower. Qed.

Lemma pow2_cancel (e : Z) : (2 ^ (- e) * 2 ^ e == 1)%Q.
Proof.
  rewrite <- Qpower_plus by discriminate.
  by replace (- e + e)%Z with 0%Z by lia.
Qed.

Lemma inject_Z_pos (b : Z) : (0 < b)%Z -> (0 < inject_Z b)%Q.
Proof. intros Hb. unfold Qlt. simpl. lia. Qed.

Lemma Qdiv_le_cross (a b c d : Z) :
  (0 < b)%Z -> (0 < d)%Z -> (a * d <= c * b)%Z ->
  (inject_Z a / inject_Z b <= inject_Z c / inject_Z d)%Q.
Proof.
  intros Hb Hd Hle.
  pose proof (inject_Z_pos b Hb) as Hb'.
  pose proof (inject_Z_pos d Hd) as Hd'.
  apply Qle_shift_div_l; [done|].
  assert (inject_Z a / inject_Z b * inject_Z d
          == (inject_Z a * inject_Z d) / inject_Z b)%Q as ->
    by (field; lra).
  apply Qle_shift_div_r; [done|].
  rewrite <- !inject_Z_mult. by rewrite <- Zle_Qle.
Qed.

Lemma Qabs_nonneg_eq (x : Q) : (0 <= x)%Q -> Qabs x = x.
Proof.
  destruct x as [n d]. unfold Qle. simpl. intros H.
  unfold Qabs. f_equal. lia.
Qed.

Lemma Qeq_bool_pos (x : Q) : (0 < x)%Q -> Qeq_bool x 0 = false.
Proof.
  intros Hx. destruct (Qeq_bool x 0) eqn:E; [|done].
  apply Qeq_bool_iff in E. lra.
Qed.

(** [Qlog2] is at most the logarithm of an integer bound, plus one. *)
Lemma Qlog2_upper (x : Q) (c : Z) :
  (0 < x)%Q -> (x <= inject_Z c)%Q -> (Qlog2 x <= Z.log2 c + 1)%Z.
Proof.
  destruct x as [n d]. unfold Qlt, Qle, Qlog2, inject_Z.
  cbn [Qnum Qden]. intros Hn Hc.
  pose proof (Pos2Z.is_pos d) as Hd.
  assert (0 <= c)%Z as Hc0 by nia.
  assert (Z.log2 n <= Z.log2 c + Z.log2 (Z.pos d) + 1)%Z as Hlog.
  { etransitivity; [apply (Z.log2_le_mono n (c * Z.pos d)); lia|].
    apply Z.log2_mul_above; lia. }
  destruct (Qle_bool _ _); lia.
Qed.

(** [2 ^ Qlog2 x] is at most [x]. *)
Lemma Qlog2_lower (x : Q) : (0 < x)%Q -> (2 ^ Qlog2 x <= x)%Q.
Proof.
  intros Hx. unfold Qlog2.
  destruct (Qle_bool _ x) eqn:E; [by apply Qle_bool_iff in E|].
  clear E. destruct x as [n d]. simpl Qnum. simpl Qden.
  assert (0 < n)%Z as Hn by (unfold Qlt in Hx; simpl in Hx; lia).
  pose proof (Z.log2_spec n Hn) as [Hn1 _].
  pose proof (Z.log2_spec (Z.pos d) (Pos2Z.is_pos d)) as [_ Hd2].
  pose proof (Z.log2_nonneg n) as Hln.
  pose proof (Z.log2_nonneg (Z.pos d)) as Hld.
  set (ln := Z.log2 n) in *. set (ld := Z.log2 (Z.pos d)) in *.
  assert (0 < 2 ^ ln)%Z as Hpn by (apply Z.pow_pos_nonneg; lia).
  assert (0 < 2 ^ Z.succ ld)%Z as Hpd by (apply Z.pow_pos_nonneg; lia).
  replace (ln - ld - 1)%Z with (ln - Z.succ ld)%Z by lia.
  rewrite Qpower_minus by discriminate.
  rewrite !pow2_inject by lia.
  rewrite (Qmake_Qdiv n d).
  apply Qdiv_le_cross; [done|lia|]. nia.
Qed.

Lemma pow2_1024_big : (256 <= 2 ^ 1024)%Q.
Proof.
  change 256%Q with (2 ^ 8)%Q. apply Qpower_le_compat_l; [lia|lra].
Qed.

(** The double nearest to a number of [0, 255] is in [0, 255]. *)
Lemma round64_byte (x : Q) :
  (0 <= x)%Q -> (x <= 255)%Q ->
  exists y, round64 x = Finite y /\ (0 <= y)%Q /\ (y <= 255)%Q.
Proof.
  intros H0 H255. unfold round64.
  destruct (Qeq_bool x 0) eqn:Ez; [exists 0%Q; split; [done|lra]|].
  assert (0 < x)%Q as Hpos.
  { apply Qnot_le_lt. intros Hle.
    assert (x == 0)%Q as E by lra.
    apply Qeq_bool_iff in E. congruence. }
  rewrite (Qabs_nonneg_eq x H0).
  pose proof (Qlog2_upper x 255 Hpos H255) as Hl.
  change (Z.log2 255) with 7%Z in Hl.
  set (e := Z.max (Qlog2 x - 52) (-1074)).
  assert (e <= 0)%Z as He by lia.
  cbv zeta.
  pose proof (pow2_pos e) as Hpe. pose proof (pow2_pos (- e)) as Hpne.
  pose proof (pow2_cancel e) as Hcancel.
  pose proof (pow2_inject (- e) ltac:(lia)) as Hint.
  set (m := np_round (x * 2 ^ (- e))).
  assert (0 <= m)%Z as Hm0.
  { apply np_round_ge_Z. change (inject_Z 0) with 0%Q.
    apply Qmult_le_0_compat; lra. }
  assert (m <= 255 * 2 ^ (- e))%Z as Hm255.
  { apply np_round_le_Z. rewrite inject_Z_mult, <- Hint.
    change (inject_Z 255) with 255%Q. apply Qmult_le_compat_r; lra. }
  assert (0 <= inject_Z m)%Q as Hq0
    by (change 0%Q with (inject_Z 0); by rewrite <- Zle_Qle).
  assert (inject_Z m <= 255 * 2 ^ (- e))%Q as Hq255.
  { rewrite Hint. change 255%Q with (inject_Z 255).
    rewrite <- inject_Z_mult. by rewrite <- Zle_Qle. }
  assert (0 <= inject_Z m * 2 ^ e)%Q as Hy0
    by (apply Qmult_le_0_compat; lra).
  assert (inject_Z m * 2 ^ e <= 255)%Q as Hy255.
  { assert (255 == 255 * 2 ^ (- e) * 2 ^ e)%Q as ->
      by (rewrite <- Qmult_assoc, Hcancel; ring).
    apply Qmult_le_compat_r; lra. }
  rewrite (Qabs_nonneg_eq _ Hy0).
  destruct (Qle_bool (2 ^ 1024) _) eqn:Eo.
  - apply Qle_bool_iff in Eo. pose proof pow2_1024_big as Hbig.
    revert Eo Hbig. generalize (2 ^ 1024)%Q. intros big ? ?. lra.
  - eexists. split; [reflexivity|]. split; done.
Qed.

Lemma py_int_round (q : Q) :
  py_int (np_round64 (Finite q)) = Ok (np_round q).
Proof.
  unfold np_round64, py_int. f_equal.
  rewrite Qfloor_Z, Qceiling_Z. by destruct (Qle_bool _ _).
Qed.

(** What [component] answers on a finite number. *)
Lemma component_Finite (v : Q) (z : Z) :
  component (Finite v) = Ok z <->
  exists p, round64 (v * 255) = Finite p /\ z = np_round p.
Proof.
  unfold component. cbn [f64_mul]. split.
  - destruct (round64 (v * 255)) as [p| | |] eqn:E; try discriminate.
    rewrite py_int_round. intros [= <-]. by exists p.
  - intros (p & -> & ->). apply py_int_round.
Qed.

(** A component of [0, 1] becomes a byte. *)
Lemma component_unit (v : Q) :
  (0 <= v <= 1)%Q ->
  exists p, f64_mul (Finite v) (Finite 255) = Finite p /\
            component (Finite v) = Ok (np_round p) /\
            (0 <= np_round p <= 255)%Z.
Proof.
  intros [H0 H1].
  destruct (round64_byte (v * 255)) as (p & Hp & Hp0 & Hp255); [lra|lra|].
  exists p. split; [done|]. split.
  - apply component_Finite. by exists p.
  - by apply np_round_byte.
Qed.

(** C10. For a sequence whose first three numbers lie in [0, 1],
    [rgb2hex] returns the seven characters '#RRGGBB', where RR, GG and BB
    are the two hexadecimal digits of round(rgb[k] * 255), the product
    being the double the multiplication yields; each is a byte, and what
    follows the third number is ignored. *)
Theorem rgb2hex_spec (r g b : Q) (rest : list float64) :
  (0 <= r <= 1)%Q -> (0 <= g <= 1)%Q -> (0 <= b <= 1)%Q ->
  exists pr pg pb : Q,
    f64_mul (Finite r) (Finite 255) = Finite pr /\
    f64_mul (Finite g) (Finite 255) = Finite pg /\
    f64_mul (Finite b) (Finite 255) = Finite pb /\
    let R := np_round pr in
    let G := np_round pg in
    let B := np_round pb in
    rgb2hex (Finite r :: Finite g :: Finite b :: rest)
    = Ok (String "#" (hex2 R ++ hex2 G ++ hex2 B)%string)
    /\ String.length (String "#" (hex2 R ++ hex2 G ++ hex2 B)%string) = 7
    /\ (0 <= R <= 255 /\ 0 <= G <= 255 /\ 0 <= B <= 255)%Z
    /\ rgb2hex (Finite r :: Finite g :: Finite b :: rest)
       = rgb2hex [Finite r; Finite g; Finite b].
Proof.
  intros Hr Hg Hb.
  destruct (component_unit r Hr) as (pr & Hpr & Hcr & HR).
  destruct (component_unit g Hg) as (pg & Hpg & Hcg & HG).
  destruct (component_unit b Hb) as (pb & Hpb & Hcb & HB).
  exists pr, pg, pb. do 3 (split; [done|]). intros R G B.
  split; [|split; [|split]]; [|done|done|done].
  unfold rgb2hex. simpl. rewrite Hcr, Hcg, Hcb. simpl. fold R G B.
  by rewrite !format_02x_byte.
Qed.

Lemma rgb2hex_spec_witness :
  rgb2hex [Finite (4662550202454161 # 72057594037927936); Finite (1 # 2);
           Finite 1; NaN]
  = Ok "#1080ff".
Proof.
  destruct (rgb2hex_spec (4662550202454161 # 72057594037927936) (1 # 2) 1
              [NaN])
    as (pr & pg & pb & Hr & Hg & Hb & Hrgb & _).
  - split; vm_compute; discriminate.
  - split; vm_compute; discriminate.
  - split; vm_compute; discriminate.
  - rewrite Hrgb. vm_compute in Hr, Hg, Hb.
    injection Hr as <-. injection Hg as <-. injection Hb as <-.
    reflexivity.
Defined.




(** * Further properties of the module *)

(** ** When the conversion returns *)

Section LoopOutcome.
Context {A E : Type}.
Implicit Types (xs : list A) (s : list E) (f : A -> list E).

(** A loop whose iterations either append [f x] (when [P x]) or raise
    IndexError (when not) appends everything if [P] holds throughout and
    raises IndexError otherwise. *)
Lemma for_each_outcome (P : A -> Prop) f body xs s :
  (forall x s, In x xs ->
     (P x /\ body x s = Ok (s ++ f x)) \/
     (~ P x /\ body x s = Raise IndexError)) ->
  (Forall P xs /\ for_each xs body s = Ok (s ++ flat_map f xs)) \/
  (~ Forall P xs /\ for_each xs body s = Raise IndexError).
Proof.
  revert s. induction xs as [|x xs IH]; intros s Hbody; simpl.
  - left. split; [constructor | by rewrite app_nil_r].
  - destruct (Hbody x s (or_introl eq_refl)) as [[HP ->]|[HP ->]]; simpl.
    + destruct (IH (s ++ f x)) as [[Hall ->]|[Hall ->]].
      * intros; apply Hbody; by right.
      * left. split; [by constructor | by rewrite <- app_assoc].
      * right. split; [|done]. by intros [_ ?]%Forall_cons.
    + right. split; [|done]. by intros [? _]%Forall_cons.
Qed.
End LoopOutcome.

Lemma getitem_Raise {A} (xs : list A) (i : nat) (e : exn) :
  getitem xs i = Raise e -> e = IndexError /\ length xs <= i.
Proof.
  unfold getitem. destruct (xs !! i) eqn:Hi; [discriminate|].
  intros [= <-]. split; [done|]. by apply lookup_ge_None.
Qed.

Lemma getitem_ge {A} (xs : list A) (i : nat) :
  length xs <= i -> getitem xs i = Raise IndexError.
Proof.
  intros Hi. unfold getitem. by rewrite (proj2 (lookup_ge_None xs i)).
Qed.

Lemma getitem2_outcome (F : matrix) (i j : nat) :
  getitem2 F i j = Ok (cell F i j) \/ getitem2 F i j = Raise IndexError.
Proof.
  destruct (getitem2 F i j) as [x|e] eqn:H.
  - left. f_equal. by apply getitem2_Ok_cell.
  - right. unfold getitem2 in H.
    destruct (getitem F i) as [row|e'] eqn:Hrow; simpl in H.
    + by apply getitem_Raise in H as [-> _].
    + injection H as <-. by apply getitem_Raise in Hrow as [-> _].
Qed.

Lemma inputs_loop_outcome possible_inputs I flows :
  (Forall (input_step_ok possible_inputs I) (seq 0 (length I)) /\
   inputs_loop possible_inputs I flows
   = Ok (flows ++ input_records possible_inputs I)) \/
  (~ Forall (input_step_ok possible_inputs I) (seq 0 (length I)) /\
   inputs_loop possible_inputs I flows = Raise IndexError).
Proof.
  unfold inputs_loop, input_records, range. rewrite <- flat_map_guard.
  apply for_each_outcome. intros i s [_ Hi]%in_seq. simpl in Hi.
  rewrite (getitem_nth I i 0%Q) by done. simpl. fold (entry I i).
  unfold input_step_ok.
  destruct (gt0 (entry I i)).
  - destruct (Nat.lt_ge_cases i (length possible_inputs)) as [Hlt|Hge].
    + left. split; [done|].
      by rewrite (getitem_nth possible_inputs i "") by done.
    + right. split; [intros H; specialize (H eq_refl); lia|].
      by rewrite getitem_ge.
  - left. split; [done|]. by rewrite app_nil_r.
Qed.

Lemma cells_loop_outcome process_ids Np F flows :
  (Forall (fun i => Forall (cell_step_ok process_ids F i) (seq 0 Np))
          (seq 0 Np) /\
   cells_loop process_ids Np F flows
   = Ok (flows ++ cell_records process_ids Np F)) \/
  (~ Forall (fun i => Forall (cell_step_ok process_ids F i) (seq 0 Np))
            (seq 0 Np) /\
   cells_loop process_ids Np F flows = Raise IndexError).
Proof.
  unfold cells_loop, cell_records, range. rewrite <- flat_map_guard.
  rewrite <- flat_map_list_prod.
  apply for_each_outcome. intros i s _.
  apply for_each_outcome. clear s. intros j s _.
  unfold cell_step_ok. simpl.
  destruct (getitem2_outcome F i j) as [->| ->]; simpl.
  - destruct (gt0 (cell F i j)).
    + destruct (Nat.lt_ge_cases i (length process_ids)) as [Hi|Hi].
      * rewrite (getitem_nth process_ids i "") by done. simpl.
        destruct (Nat.lt_ge_cases j (length process_ids)) as [Hj|Hj].
        -- left. rewrite (getitem_nth process_ids j "") by done. by split.
        -- right. rewrite (getitem_ge process_ids j) by done.
           split; [|done].
           intros [_ H]. specialize (H eq_refl). lia.
      * right. rewrite (getitem_ge process_ids i) by done. split; [|done].
        intros [_ H]. specialize (H eq_refl). lia.
    + left. split; [done|]. by rewrite app_nil_r.
  - right. split; [|reflexivity]. intros [H _]. discriminate H.
Qed.

Lemma input_steps_named possible_inputs I :
  Forall (input_step_ok possible_inputs I) (seq 0 (length I))
  <-> inputs_named possible_inputs I.
Proof.
  unfold inputs_named, input_step_ok. rewrite List.Forall_forall. split.
  - intros H i Hi Hpos. apply H; [apply in_seq; lia | by apply gt0_spec].
  - intros H i [_ Hi]%in_seq Hpos. apply H; [done | by apply gt0_spec].
Qed.

Lemma getitem2_present (F : matrix) (i j : nat) :
  i < length F ->
  getitem2 F i j = Ok (cell F i j) <-> j < length (nth i F []).
Proof.
  intros Hi. unfold getitem2. rewrite (getitem_nth F i []) by done. simpl.
  split.
  - by intros [_ ?]%(getitem_Ok_nth _ _ _ 0%Q).
  - intros Hj. by rewrite (getitem_nth _ j 0%Q).
Qed.

Lemma block_present_columns (F : matrix) :
  block_present F <->
  forall i j, i < length F -> j < length F -> j < length (nth i F []).
Proof.
  unfold block_present. rewrite List.Forall_forall. split.
  - intros H i j Hi Hj.
    specialize (H (nth i F []) (nth_In F [] Hi)). lia.
  - intros H row Hrow.
    destruct (In_nth F row [] Hrow) as (i & Hi & <-).
    destruct (length F) as [|n] eqn:Hn; [lia|].
    specialize (H i n Hi). lia.
Qed.

Lemma cell_steps_named process_ids F :
  Forall (fun i => Forall (cell_step_ok process_ids F i)
                          (seq 0 (length F)))
         (seq 0 (length F))
  <-> block_present F /\ cells_named process_ids F.
Proof.
  rewrite block_present_columns. unfold cells_named, cell_step_ok.
  rewrite List.Forall_forall. split.
  - intros H. split.
    + intros i j Hi Hj.
      assert (In i (seq 0 (length F))) as Hin by (apply in_seq; lia).
      specialize (H i Hin). rewrite List.Forall_forall in H.
      destruct (H j) as [Hcell _]; [apply in_seq; lia|].
      by apply getitem2_present in Hcell.
    + intros i j Hi Hj Hpos.
      assert (In i (seq 0 (length F))) as Hin by (apply in_seq; lia).
      specialize (H i Hin). rewrite List.Forall_forall in H.
      destruct (H j) as [_ Hnamed]; [apply in_seq; lia|].
      by apply Hnamed, gt0_spec.
  - intros [Hblock Hnamed] i [_ Hi]%in_seq. simpl in Hi.
    apply List.Forall_forall. intros j [_ Hj]%in_seq. simpl in Hj. split.
    + apply getitem2_present; [done|]. by apply Hblock.
    + intros Hpos%gt0_spec. by apply Hnamed.
Qed.

(** X1. [inputs_flows_as_dataframe] returns exactly when every positive
    input entry has a name, every row of [F] has at least as many
    columns as [F] has rows, and the row and column of every positive
    cell have a registry key; in every other case it raises IndexError,
    and it never raises anything else. *)
Theorem inputs_flows_as_dataframe_returns_iff {M} (processes : registry M)
    (possible_inputs : list string) (I : list Q) (F : matrix) :
  ((exists df,
      inputs_flows_as_dataframe processes possible_inputs I F = Ok df)
   <-> inputs_named possible_inputs I /\ block_present F /\
       cells_named (keys processes) F)
  /\ (forall e,
        inputs_flows_as_dataframe processes possible_inputs I F = Raise e ->
        e = IndexError).
Proof.
  unfold inputs_flows_as_dataframe, shape0.
  rewrite <- input_steps_named, <- cell_steps_named.
  destruct (inputs_loop_outcome possible_inputs I []) as [[Hin ->]|[Hin ->]];
    simpl.
  - destruct (cells_loop_outcome (keys processes) (length F) F
                (input_records possible_inputs I))
      as [[Hc ->]|[Hc ->]].
    + split; [|discriminate]. split; [done | eauto].
    + split; [|by intros e [= <-]].
      split; [by intros [df [=]] | by intros [_ ?]].
  - split; [|by intros e [= <-]].
    split; [by intros [df [=]] | by intros [? _]].
Qed.

(** The closed form under the exact condition for returning. *)
Lemma inputs_flows_as_dataframe_named {M} (processes : registry M)
    possible_inputs I F :
  inputs_named possible_inputs I -> block_present F ->
  cells_named (keys processes) F ->
  inputs_flows_as_dataframe processes possible_inputs I F
  = Ok (input_records possible_inputs I
        ++ cell_records (keys processes) (length F) F).
Proof.
  intros Hin%input_steps_named Hblock Hcells.
  pose proof (proj2 (cell_steps_named _ _) (conj Hblock Hcells)) as Hc.
  unfold inputs_flows_as_dataframe, shape0.
  destruct (inputs_loop_outcome possible_inputs I []) as [[_ ->]|[? _]];
    [|done]. simpl.
  by destruct (cells_loop_outcome (keys processes) (length F) F
                 (input_records possible_inputs I)) as [[_ ->]|[? _]].
Qed.

Lemma gt0_nonpositive (x : Q) : (x <= 0)%Q -> gt0 x = false.
Proof.
  intros Hx. apply not_true_iff_false. intros Hpos%gt0_spec.
  by apply (Qlt_not_le _ _ Hpos).
Qed.

Lemma nth_nonpositive (l : list Q) (i : nat) :
  Forall (fun x => (x <= 0)%Q) l -> (nth i l 0 <= 0)%Q.
Proof.
  intros Hl. destruct (nth_in_or_default i l 0%Q) as [Hin| ->].
  - rewrite List.Forall_forall in Hl. by apply Hl.
  - apply Qle_refl.
Qed.

Lemma cell_nonpositive (F : matrix) (i j : nat) :
  Forall (Forall (fun x => (x <= 0)%Q)) F -> (cell F i j <= 0)%Q.
Proof.
  intros HF. unfold cell. apply nth_nonpositive.
  destruct (nth_in_or_default i F []) as [Hin| ->]; [|constructor].
  rewrite List.Forall_forall in HF. by apply HF.
Qed.

Lemma filter_none {A} (p : A -> bool) (l : list A) :
  (forall x, In x l -> p x = false) -> List.filter p l = [].
Proof.
  induction l as [|x l IH]; intros H; simpl; [done|].
  rewrite (H x) by (by left). apply IH. intros y Hy. apply H. by right.
Qed.

(** X2. A vector and a matrix without a positive entry give the empty
    dataframe whatever the names are: names and registry keys are looked
    up for positive entries only, so even an empty registry is accepted. *)
Theorem no_positive_entry_no_record {M} (processes : registry M)
    (possible_inputs : list string) (I : list Q) (F : matrix) :
  Forall (fun x => (x <= 0)%Q) I ->
  Forall (Forall (fun x => (x <= 0)%Q)) F ->
  block_present F ->
  inputs_flows_as_dataframe processes possible_inputs I F = Ok [].
Proof.
  intros HI HF Hblock.
  rewrite inputs_flows_as_dataframe_named; [| |done|].
  - unfold input_records, cell_records.
    rewrite !filter_none; [done| |].
    + intros ij _. apply gt0_nonpositive. by apply cell_nonpositive.
    + intros i _. apply gt0_nonpositive. by apply nth_nonpositive.
  - intros i _ Hpos. exfalso.
    apply (Qlt_not_le _ _ Hpos). by apply nth_nonpositive.
  - intros i j _ _ Hpos. exfalso.
    apply (Qlt_not_le _ _ Hpos). by apply cell_nonpositive.
Qed.

Lemma no_positive_entry_no_record_witness :
  inputs_flows_as_dataframe ([] : registry unit) [] [0; -1]%Q
    [[0; -2]; [0; 0]]%Q
  = Ok [].
Proof.
  apply no_positive_entry_no_record.
  - repeat constructor; vm_compute; discriminate.
  - repeat constructor; vm_compute; discriminate.
  - repeat constructor.
Defined.

(** ** [flows_from_trace] on a well-shaped trace *)

Lemma slice_returns {A} (xs : list A) (nburn thin : Z) :
  thin <> 0%Z -> exists kept, slice xs nburn thin = Ok kept.
Proof.
  intros Hthin. unfold slice, slice_indices.
  destruct (Z.eqb_spec thin 0) as [|_]; [done|].
  destruct (0 <? thin)%Z; simpl; eauto.
Qed.

Lemma sample_inputs_loop_returns possible_inputs ni np kept i rows :
  uniform ni np kept -> ni <= length possible_inputs ->
  i < length kept ->
  sample_inputs_loop possible_inputs (map sample_inputs kept) i rows
  = Ok (rows ++ sample_input_rows possible_inputs
                  (map sample_inputs kept) i).
Proof.
  intros Hu Hni Hi.
  destruct (lookup_lt_is_Some_2 kept i Hi) as [s Hs].
  destruct (uniform_shape1 _ _ _ _ _ Hu Hs) as [Hshape _].
  destruct (uniform_lookup _ _ _ _ _ Hu Hs) as [Hlen _].
  unfold sample_inputs_loop, sample_input_rows, range.
  rewrite <- flat_map_guard. rewrite Hshape.
  apply for_each_appends. intros j r [_ Hj]%in_seq. simpl in Hj.
  assert (getitem2 (map sample_inputs kept) i j
          = Ok (cell (map sample_inputs kept) i j)) as ->.
  { apply getitem2_present; [by rewrite length_map|].
    rewrite (nth_map_lookup _ _ _ s) by done. lia. }
  simpl. destruct (gt0 (cell (map sample_inputs kept) i j));
    [|by rewrite app_nil_r].
  by rewrite (getitem_nth possible_inputs j "") by lia.
Qed.

Lemma sample_cells_loop_returns process_ids ni np kept i rows :
  uniform ni np kept -> np <= length process_ids ->
  i < length kept ->
  sample_cells_loop process_ids np (map sample_F kept) i rows
  = Ok (rows ++ sample_cell_rows process_ids np (map sample_F kept) i).
Proof.
  intros Hu Hnp Hi.
  destruct (lookup_lt_is_Some_2 kept i Hi) as [s Hs].
  destruct (uniform_lookup _ _ _ _ _ Hu Hs) as [_ Hsq].
  unfold sample_cells_loop, sample_cell_rows, range.
  rewrite <- flat_map_guard, <- flat_map_list_prod.
  apply for_each_appends. intros j r [_ Hj]%in_seq.
  apply for_each_appends. clear r. intros k r [_ Hk]%in_seq.
  simpl in Hj, Hk.
  assert (getitem3 (map sample_F kept) i j k
          = Ok (cell (nth i (map sample_F kept) []) j k)) as ->.
  { unfold getitem3.
    rewrite (getitem_nth (map sample_F kept) i ([] : matrix))
      by (by rewrite length_map).
    simpl. rewrite (nth_map_lookup _ _ _ s) by done.
    by apply (getitem2_cell _ np). }
  simpl. destruct (gt0 (cell (nth i (map sample_F kept) []) j k));
    [|by rewrite app_nil_r].
  by rewrite !(getitem_nth process_ids _ "") by lia.
Qed.

Lemma samples_loop_returns process_ids possible_inputs ni np kept rows :
  uniform ni np kept ->
  ni <= length possible_inputs -> np <= length process_ids ->
  samples_loop process_ids possible_inputs (map sample_inputs kept)
    (map sample_F kept) np rows
  = Ok (rows ++ flat_map (sample_rows process_ids possible_inputs
                            (map sample_inputs kept) (map sample_F kept) np)
                         (seq 0 (length kept))).
Proof.
  intros Hu Hni Hnp. unfold samples_loop, shape0, range.
  rewrite length_map.
  apply for_each_appends. intros i r [_ Hi]%in_seq. simpl in Hi.
  rewrite (sample_inputs_loop_returns _ ni np) by done. simpl.
  rewrite (sample_cells_loop_returns _ ni np) by done.
  unfold sample_rows. by rewrite <- app_assoc.
Qed.

(** The rows of a sample are the records of its own conversion, tagged. *)
Lemma sample_rows_with_sample process_ids possible_inputs ni np kept i s :
  uniform ni np kept -> kept !! i = Some s ->
  sample_rows process_ids possible_inputs (map sample_inputs kept)
    (map sample_F kept) np i
  = map (with_sample i)
        (input_records possible_inputs (sample_inputs s)
         ++ cell_records process_ids (length (sample_F s)) (sample_F s)).
Proof.
  intros Hu Hs.
  destruct (uniform_shape1 _ _ _ _ _ Hu Hs) as [Hshape _].
  destruct (uniform_lookup _ _ _ _ _ Hu Hs) as [Hlen [HlenF _]].
  unfold sample_rows, sample_input_rows, sample_cell_rows, input_records,
    cell_records, cell, entry.
  rewrite Hshape, HlenF, <- Hlen.
  rewrite !(nth_map_lookup _ _ _ s) by done.
  by rewrite map_app, !map_map.
Qed.

Lemma flat_map_seq_imap {A E B} (g : nat -> list B) (c : A -> list E)
    (tag : nat -> E -> B) (l : list A) (a : nat) :
  (forall i x, l !! i = Some x -> g (a + i) = map (tag (a + i)) (c x)) ->
  flat_map g (seq a (length l))
  = concat (imap (fun i df => map (tag (a + i)) df) (map c l)).
Proof.
  revert a. induction l as [|x l IH]; intros a Hg; simpl; [done|].
  rewrite <- (Nat.add_0_r a) at 1. rewrite (Hg 0 x eq_refl). f_equal.
  rewrite (IH (S a)).
  - f_equal. apply imap_ext. intros i df _. simpl.
    by rewrite Nat.add_succ_r.
  - intros i y Hy. simpl. rewrite <- Nat.add_succ_r. by apply Hg.
Qed.

Lemma concat_imap_length {E B} (tag : nat -> E -> B) (dfs : list (list E)) :
  length (concat (imap (fun i df => map (tag i) df) dfs))
  = list_sum (map (@length E) dfs).
Proof.
  revert tag. induction dfs as [|df dfs IH]; intros tag; simpl; [done|].
  rewrite length_app, length_map. f_equal. exact (IH (tag ∘ S)).
Qed.

Lemma uniform_sample_named {M} (processes : registry M) possible_inputs
    ni np s :
  length (sample_inputs s) = ni -> square np (sample_F s) ->
  ni <= length possible_inputs -> np <= length (keys processes) ->
  inputs_flows_as_dataframe processes possible_inputs (sample_inputs s)
    (sample_F s)
  = Ok (sample_records (keys processes) possible_inputs s).
Proof.
  intros Hlen [HlenF Hrows] Hni Hnp.
  apply inputs_flows_as_dataframe_named.
  - intros i Hi _. lia.
  - unfold block_present. rewrite HlenF.
    apply (List.Forall_impl (P := fun row => length row = np)); [|done].
    intros row ->. lia.
  - intros i j Hi Hj _. lia.
Qed.

(** On a trace whose samples all have [ni] inputs and an [np] x [np]
    matrix, with enough names, the conversion returns the tagged records
    of the retained samples. *)
Lemma flows_from_trace_uniform {M} (processes : registry M)
    possible_inputs t nburn thin ni np kept :
  uniform ni np t ->
  ni <= length possible_inputs -> np <= length (keys processes) ->
  slice t nburn thin = Ok kept ->
  flows_from_trace processes possible_inputs t nburn thin
  = Ok (concat (imap (fun i df => map (with_sample i) df)
                     (map (sample_records (keys processes) possible_inputs)
                          kept))).
Proof.
  intros Hu Hni Hnp Hkept.
  pose proof (uniform_slice _ _ _ _ _ _ Hu Hkept) as Hk.
  unfold flows_from_trace, trace_inputs, trace_F. rewrite Hkept. simpl.
  destruct kept as [|s0 kept0] eqn:Ekept; [done|]. rewrite <- Ekept in *.
  assert (kept !! 0 = Some s0) as Hs0 by (by rewrite Ekept).
  destruct (uniform_shape1 _ _ _ _ _ Hk Hs0) as [_ ->].
  rewrite (samples_loop_returns _ _ ni np) by done. simpl. f_equal.
  apply (flat_map_seq_imap _ _ with_sample kept 0).
  intros i s Hs. simpl. by apply (sample_rows_with_sample _ _ ni np).
Qed.

(** X3. On a trace whose samples all have the same shapes, with a name
    for every input and a registry key for every process, and with a
    nonzero thinning step, [flows_from_trace] returns, and what it
    returns is what [inputs_flows_as_dataframe] returns for each retained
    sample in turn, every record tagged with the position of its sample
    in the slice. *)
Theorem flows_from_trace_per_sample {M} (processes : registry M)
    (possible_inputs : list string) (t : trace) (nburn thin : Z)
    (ni np : nat) :
  uniform ni np t ->
  ni <= length possible_inputs -> np <= length (keys processes) ->
  thin <> 0%Z ->
  exists kept dfs,
    slice t nburn thin = Ok kept /\
    Forall2 (fun s df =>
               inputs_flows_as_dataframe processes possible_inputs
                 (sample_inputs s) (sample_F s) = Ok df) kept dfs /\
    flows_from_trace processes possible_inputs t nburn thin
    = Ok (concat (imap (fun i df => map (with_sample i) df) dfs)).
Proof.
  intros Hu Hni Hnp Hthin.
  destruct (slice_returns t nburn thin Hthin) as [kept Hkept].
  exists kept, (map (sample_records (keys processes) possible_inputs) kept).
  split; [done|]. split.
  - pose proof (uniform_slice _ _ _ _ _ _ Hu Hkept) as Hk.
    clear Hkept. induction Hk as [|s kept [Hlen Hsq] _ IH]; simpl;
      constructor; [|exact IH].
    by apply (uniform_sample_named _ _ ni np).
  - by apply (flows_from_trace_uniform _ _ _ _ _ ni np).
Qed.

Lemma flows_from_trace_per_sample_witness :
  exists kept dfs,
    slice demo_trace 1 2 = Ok kept /\
    Forall2 (fun s df =>
               inputs_flows_as_dataframe [("A", tt); ("B", tt)] ["x"; "y"]
                 (sample_inputs s) (sample_F s) = Ok df) kept dfs /\
    flows_from_trace [("A", tt); ("B", tt)] ["x"; "y"] demo_trace 1 2
    = Ok (concat (imap (fun i df => map (with_sample i) df) dfs)).
Proof.
  apply (flows_from_trace_per_sample [("A", tt); ("B", tt)] ["x"; "y"]
           demo_trace 1 2 2 2).
  - repeat constructor.
  - simpl. lia.
  - simpl. lia.
  - discriminate.
Defined.

Lemma input_records_length possible_inputs I :
  length (input_records possible_inputs I) = count_positive I.
Proof.
  unfold input_records, count_positive. rewrite length_map.
  apply filter_indices_length.
Qed.

(** X4. Under the same conditions the dataframe has one row per strictly
    positive input entry and per strictly positive matrix cell of every
    retained sample. *)
Theorem flows_from_trace_row_count {M} (processes : registry M)
    (possible_inputs : list string) (t : trace) (nburn thin : Z)
    (ni np : nat) (kept : list sample) :
  uniform ni np t ->
  ni <= length possible_inputs -> np <= length (keys processes) ->
  slice t nburn thin = Ok kept ->
  exists rows,
    flows_from_trace processes possible_inputs t nburn thin = Ok rows /\
    length rows
    = list_sum (map (fun s => count_positive (sample_inputs s)
                              + count_positive_cells (sample_F s)) kept).
Proof.
  intros Hu Hni Hnp Hkept.
  rewrite (flows_from_trace_uniform _ _ _ _ _ ni np kept) by done.
  eexists. split; [done|].
  rewrite concat_imap_length, map_map. f_equal.
  pose proof (uniform_slice _ _ _ _ _ _ Hu Hkept) as Hk.
  apply map_ext_in. intros s Hs.
  unfold uniform in Hk. rewrite List.Forall_forall in Hk.
  destruct (Hk s Hs) as [_ Hsq]. pose proof Hsq as [HlenF _].
  unfold sample_records.
  rewrite length_app, input_records_length, HlenF.
  by rewrite (cell_records_length _ np).
Qed.

Lemma flows_from_trace_row_count_witness :
  exists rows,
    flows_from_trace [("A", tt); ("B", tt)] ["x"; "y"] demo_trace 1 2
    = Ok rows /\
    length rows = 3.
Proof.
  apply (flows_from_trace_row_count [("A", tt); ("B", tt)] ["x"; "y"]
           demo_trace 1 2 2 2 [demo_sample 3 0; demo_sample 5 6]).
  - repeat constructor.
  - simpl. lia.
  - simpl. lia.
  - reflexivity.
Defined.

(** ** Burn-in, thinning and the exceptions of [flows_from_trace] *)

Lemma slice_past_end {A} (xs : list A) (nburn thin : Z) :
  (Z.of_nat (length xs) <= nburn)%Z -> (0 < thin)%Z ->
  slice xs nburn thin = Ok [].
Proof.
  intros Hburn Hthin. unfold slice, slice_indices.
  destruct (Z.eqb_spec thin 0) as [|_]; [lia|].
  destruct (Z.ltb_spec 0 thin) as [_|]; [|lia].
  destruct (Z.ltb_spec nburn 0) as [|_]; [lia|].
  rewrite Z.min_r by lia. by rewrite Z.ltb_irrefl.
Qed.

(** X5. A burn-in at least as long as the trace (with a positive
    thinning step) silently yields the empty dataframe, whatever the
    registry and the input names: nothing is raised. *)
Theorem flows_from_trace_burn_in_past_end {M} (processes : registry M)
    (possible_inputs : list string) (t : trace) (nburn thin : Z) :
  (Z.of_nat (length t) <= nburn)%Z -> (0 < thin)%Z ->
  flows_from_trace processes possible_inputs t nburn thin = Ok [].
Proof.
  intros Hburn Hthin. unfold flows_from_trace, trace_inputs, trace_F.
  by rewrite slice_past_end.
Qed.

Lemma flows_from_trace_burn_in_past_end_witness :
  flows_from_trace ([] : registry unit) [] demo_trace default_nburn
    default_thin
  = Ok [].
Proof.
  apply flows_from_trace_burn_in_past_end.
  - vm_compute. discriminate.
  - reflexivity.
Defined.

Lemma slice_length {A} (xs : list A) (nburn thin : Z) (kept : list A) :
  (0 <= nburn)%Z -> (0 < thin)%Z ->
  slice xs nburn thin = Ok kept ->
  length kept
  = Z.to_nat ((Z.of_nat (length xs) - nburn + thin - 1) / thin).
Proof.
  intros Hburn Hthin. unfold slice, slice_indices.
  destruct (Z.eqb_spec thin 0) as [|_]; [lia|].
  destruct (Z.ltb_spec 0 thin) as [_|]; [|lia].
  destruct (Z.ltb_spec nburn 0) as [|_]; [lia|].
  set (n := Z.of_nat (length xs)).
  set (lo := Z.min nburn n).
  set (count := if (lo <? n)%Z then ((n - lo - 1) / thin + 1)%Z else 0%Z).
  simpl. intros [= <-].
  assert (Forall (fun i => i < length xs)
            (map (fun k => Z.to_nat (lo + Z.of_nat k * thin))
                 (seq 0 (Z.to_nat count)))) as Hvalid.
  { apply List.Forall_map, List.Forall_forall.
    intros k [_ Hk]%in_seq. subst count.
    destruct (Z.ltb_spec lo n) as [Hlo|]; [|simpl in Hk; lia].
    pose proof (Z.mul_div_le (n - lo - 1) thin Hthin).
    assert (Z.of_nat k <= (n - lo - 1) / thin)%Z by lia. nia. }
  rewrite omap_length_valid, length_map, length_seq by done.
  subst count lo.
  destruct (Z.ltb_spec (Z.min nburn n) n) as [Hlo|Hlo].
  - f_equal. rewrite Z.min_l by lia.
    replace (n - nburn + thin - 1)%Z with (n - nburn - 1 + 1 * thin)%Z
      by lia.
    by rewrite Z.div_add by lia.
  - pose proof (Z.div_lt_upper_bound (n - nburn + thin - 1) thin 1 Hthin)
      as Hq.
    lia.
Qed.

(** X6. With a burn-in [nburn >= 0] and a thinning step [thin > 0] the
    slice [trace[nburn::thin]] always exists and keeps
    ceil((len(trace) - nburn) / thin) samples (none when the burn-in
    passes the end), sample [i] of the slice being sample
    [nburn + i * thin] of the trace; without burn-in and thinning it is
    the whole trace. *)
Theorem slice_retained {A} (xs : list A) (nburn thin : Z) :
  (0 <= nburn)%Z -> (0 < thin)%Z ->
  exists kept,
    slice xs nburn thin = Ok kept /\
    length kept
    = Z.to_nat ((Z.of_nat (length xs) - nburn + thin - 1) / thin) /\
    (forall i, i < length kept ->
               kept !! i = xs !! (Z.to_nat nburn + i * Z.to_nat thin)) /\
    (nburn = 0%Z -> thin = 1%Z -> kept = xs).
Proof.
  intros Hburn Hthin.
  destruct (slice_returns xs nburn thin) as [kept Hkept]; [lia|].
  pose proof (slice_length xs nburn thin kept Hburn Hthin Hkept) as Hlen.
  pose proof (slice_lookup xs nburn thin kept Hburn Hthin Hkept) as Hlook.
  exists kept. split; [done|]. split; [done|]. split; [done|].
  intros -> ->. apply list_eq. intros i.
  assert (length kept = length xs) as Hsame.
  { rewrite Hlen. replace (Z.of_nat (length xs) - 0 + 1 - 1)%Z
      with (Z.of_nat (length xs)) by lia.
    rewrite Z.div_1_r. lia. }
  destruct (Nat.lt_ge_cases i (length kept)) as [Hi|Hi].
  - rewrite Hlook by done. f_equal. simpl. lia.
  - rewrite (proj2 (lookup_ge_None kept i)) by done.
    symmetry. apply lookup_ge_None. lia.
Qed.

Lemma slice_retained_witness :
  exists kept,
    slice demo_trace 1 2 = Ok kept /\
    length kept = 2 /\
    (forall i, i < length kept ->
               kept !! i = demo_trace !! (Z.to_nat 1 + i * Z.to_nat 2)) /\
    (1%Z = 0%Z -> 2%Z = 1%Z -> kept = demo_trace).
Proof.
  apply (slice_retained demo_trace 1 2); [discriminate | reflexivity].
Defined.

Lemma for_each_raises {A S} (R : exn -> Prop) (body : A -> S -> res S)
    (xs : list A) (s : S) (e : exn) :
  (forall x s e, body x s = Raise e -> R e) ->
  for_each xs body s = Raise e -> R e.
Proof.
  intros Hbody. revert s. induction xs as [|x xs IH]; intros s; simpl.
  - discriminate.
  - destruct (body x s) as [s'|e'] eqn:Hx; simpl.
    + apply IH.
    + intros [= <-]. by eapply Hbody.
Qed.

Lemma getitem2_Raise (F : matrix) (i j : nat) (e : exn) :
  getitem2 F i j = Raise e -> e = IndexError.
Proof.
  intros H. destruct (getitem2_outcome F i j) as [H'|H']; congruence.
Qed.

Lemma getitem3_Raise (flows : list matrix) (i j k : nat) (e : exn) :
  getitem3 flows i j k = Raise e -> e = IndexError.
Proof.
  unfold getitem3. destruct (getitem flows i) as [Fi|e'] eqn:HFi; simpl.
  - apply getitem2_Raise.
  - intros [= <-]. by apply getitem_Raise in HFi as [-> _].
Qed.

(** Splits a hypothesis that a chain of lookups raised into its cases. *)
Ltac raise_cases H :=
  repeat (simpl in H;
          match type of H with
          | context [getitem3 ?a ?b ?c ?d] =>
              let E := fresh "E" in
              destruct (getitem3 a b c d) eqn:E;
              [|apply getitem3_Raise in E]
          | context [getitem2 ?a ?b ?c] =>
              let E := fresh "E" in
              destruct (getitem2 a b c) eqn:E;
              [|apply getitem2_Raise in E]
          | context [getitem ?a ?b] =>
              let E := fresh "E" in
              destruct (getitem a b) eqn:E;
              [|apply getitem_Raise in E as [E _]]
          | context [gt0 ?x] => destruct (gt0 x)
          end);
  simpl in H; try discriminate H; try congruence.

Lemma samples_loop_raises process_ids possible_inputs inputs flows Np
    rows e :
  samples_loop process_ids possible_inputs inputs flows Np rows = Raise e ->
  e = IndexError.
Proof.
  unfold samples_loop.
  apply (for_each_raises (fun e => e = IndexError)). clear rows e.
  intros i rows e H.
  destruct (sample_inputs_loop possible_inputs inputs i rows)
    as [mid|e'] eqn:Hin; simpl in H.
  - revert H. unfold sample_cells_loop.
    apply (for_each_raises (fun e => e = IndexError)). clear. intros j rows e.
    apply (for_each_raises (fun e => e = IndexError)). clear rows e.
    intros k rows e H.
    raise_cases H.
  - injection H as <-. revert Hin. unfold sample_inputs_loop.
    apply (for_each_raises (fun e => e = IndexError)). clear. intros j rows e H.
    raise_cases H.
Qed.

Lemma slice_raises {A} (xs : list A) (start step : Z) (e : exn) :
  slice xs start step = Raise e -> e = ValueError /\ step = 0%Z.
Proof.
  unfold slice, slice_indices.
  destruct (Z.eqb_spec step 0) as [->|_]; simpl; [by intros [= <-]|].
  destruct (0 <? step)%Z; discriminate.
Qed.

Lemma slice_zero_step {A} (xs : list A) (start : Z) :
  slice xs start 0 = Raise ValueError.
Proof. reflexivity. Qed.

(** X7. [flows_from_trace] raises ValueError exactly when the thinning
    step is zero, and otherwise can only raise IndexError (a missing
    input name or process id, or arrays of unequal shapes); it raises
    nothing else. *)
Theorem flows_from_trace_exceptions {M} (processes : registry M)
    (possible_inputs : list string) (t : trace) (nburn thin : Z) :
  (thin = 0%Z ->
   flows_from_trace processes possible_inputs t nburn thin
   = Raise ValueError)
  /\ (forall e,
        flows_from_trace processes possible_inputs t nburn thin = Raise e ->
        (e = ValueError /\ thin = 0%Z) \/ (e = IndexError /\ thin <> 0%Z)).
Proof.
  unfold flows_from_trace, trace_inputs, trace_F. split.
  - intros ->. by rewrite slice_zero_step.
  - intros e. destruct (slice t nburn thin) as [kept|e'] eqn:Hkept; simpl.
    + intros ->%samples_loop_raises. right. split; [done|].
      intros ->. by rewrite slice_zero_step in Hkept.
    + intros [= <-]. left. by apply slice_raises in Hkept.
Qed.

Lemma flows_from_trace_exceptions_witness :
  flows_from_trace [("A", tt); ("B", tt)] ["x"; "y"] demo_trace 1 0
  = Raise ValueError.
Proof.
  exact (proj1 (flows_from_trace_exceptions [("A", tt); ("B", tt)]
                  ["x"; "y"] demo_trace 1 0) eq_refl).
Defined.

(** ** The frames of the animation *)

Lemma range3_In (start stop step i : nat) :
  0 < step ->
  In i (range3 start stop step)
  <-> start <= i < stop /\ (i - start) mod step = 0.
Proof.
  intros Hstep. unfold range3. rewrite in_map_iff. split.
  - intros (k & <- & [_ Hk]%in_seq). simpl in Hk.
    pose proof (Nat.Div0.mul_div_le (stop - start + (step - 1)) step).
    split; [nia|].
    replace (start + k * step - start) with (k * step) by lia.
    apply Nat.Div0.mod_mul.
  - intros [[Hlo Hhi] Hmod].
    apply Nat.Div0.div_exact in Hmod.
    exists ((i - start) / step). split; [nia|].
    apply in_seq. split; [lia|]. simpl.
    apply Nat.Div0.div_lt_upper_bound.
    pose proof (Nat.div_mod_eq (stop - start + (step - 1)) step).
    pose proof (Nat.mod_upper_bound (stop - start + (step - 1)) step).
    nia.
Qed.

Lemma range3_increasing (start stop step : nat) :
  0 < step -> StronglySorted lt (range3 start stop step).
Proof.
  intros Hstep. unfold range3.
  generalize ((stop - start + (step - 1)) / step) as n.
  generalize 0 as a.
  intros a n. revert a. induction n as [|n IH]; intros a; simpl.
  - constructor.
  - constructor; [apply IH|].
    apply List.Forall_map, List.Forall_forall.
    intros k [Hk _]%in_seq. nia.
Qed.

(** X8. The animation shows the samples whose index is a multiple of
    ten, in increasing order, and every index it shows exists in the
    trace: indexing the trace never fails inside [play]. *)
Theorem play_shown_samples (t : trace) :
  (forall i, In i (range3 0 (length t) 10)
             <-> i < length t /\ i mod 10 = 0)
  /\ StronglySorted lt (range3 0 (length t) 10)
  /\ (forall i, In i (range3 0 (length t) 10) ->
                exists s, getitem t i = Ok s).
Proof.
  split; [|split].
  - intros i. rewrite range3_In by lia. rewrite Nat.sub_0_r. lia.
  - apply range3_increasing. lia.
  - intros i [[_ Hi] _]%range3_In; [|lia].
    exists (nth i t (Sample [] [])). by apply getitem_nth.
Qed.

(** On the scripted notebook with nothing left to raise, a loop whose
    iterations log [calls x] logs them all. *)
Lemma io_for_logs {A} (body : A -> io script unit) (calls : A -> list call)
    (xs : list A) (log : list call) :
  (forall x log, In x xs ->
                 body x ([], log) = (Ok tt, ([], log ++ calls x))) ->
  io_for xs body ([], log) = (Ok tt, ([], log ++ flat_map calls xs)).
Proof.
  revert log. induction xs as [|x xs IH]; intros log Hbody; simpl.
  - unfold io_ret. by rewrite app_nil_r.
  - unfold io_bind. rewrite Hbody by (by left).
    rewrite IH, <- app_assoc; [done|].
    intros; apply Hbody; by right.
Qed.

(** X9. When no call fails and every shown sample converts, [play]
    returns normally after one frame per shown sample: the dataset of
    that sample's records, a 600 x 300 widget, the update of the links,
    a rescale only if [rescale] was asked for, and a sleep of half a
    second. *)
Theorem play_frames {M} (processes : registry M)
    (possible_inputs : list string) (t : trace) (rescale : bool)
    (log : list call) :
  (forall i s, In i (range3 0 (length t) 10) -> t !! i = Some s ->
     exists df,
       inputs_flows_as_dataframe processes possible_inputs
         (sample_inputs s) (sample_F s) = Ok df) ->
  play processes possible_inputs t tt rescale ([], log)
  = (Ok tt,
     ([], log ++ flat_map (fun i =>
                             frame_calls rescale
                               (frame_rows (keys processes)
                                  possible_inputs t i))
                          (range3 0 (length t) 10))).
Proof.
  intros Hconv. unfold play, try_except_KeyboardInterrupt, play_loop.
  rewrite (io_for_logs _ (fun i =>
             frame_calls rescale
               (frame_rows (keys processes) possible_inputs t i)));
    [done|].
  intros i log' Hi.
  pose proof Hi as [[_ Hlt] _]%range3_In; [|lia].
  destruct (lookup_lt_is_Some_2 t i Hlt) as [s Hs].
  destruct (Hconv i s Hi Hs) as [df Hdf].
  pose proof (inputs_flows_as_dataframe_Ok _ _ _ _ _ Hdf) as Hrec.
  unfold play_step, update, dataset, frame_calls, frame_rows.
  rewrite (nth_lookup_Some _ _ _ _ Hs).
  unfold mbind, io_mbind, io_bind, lift.
  rewrite (proj2 (getitem_Ok t i s) Hs), Hdf. simpl.
  fold (sample_records (keys processes) possible_inputs s) in Hrec.
  rewrite <- Hrec.
  destruct rescale; simpl; by rewrite <- ?app_assoc.
Qed.

Lemma play_frames_witness :
  play [("A", tt); ("B", tt)] ["x"; "y"] (repeat (demo_sample 1 2) 12) tt
    true ([], [])
  = (Ok tt,
     ([], [CallDataset 2; CallWeave 600 300; CallSetLinks; CallSetScale;
           CallSleep (1 # 2);
           CallDataset 2; CallWeave 600 300; CallSetLinks; CallSetScale;
           CallSleep (1 # 2)])).
Proof.
  apply (play_frames [("A", tt); ("B", tt)] ["x"; "y"]
           (repeat (demo_sample 1 2) 12) true []).
  intros i s Hi Hs.
  assert (s = demo_sample 1 2) as ->.
  { apply list_elem_of_lookup_2, list_elem_of_In, repeat_spec in Hs.
    exact Hs. }
  eexists. reflexivity.
Defined.

(** ** [animate_samples] and [show_sample] *)

Section FirstFrame.
Context {W Sdd Dataset Widget Button Box M : Type}
        `{!Notebook W Sdd Dataset Widget} `{!Controls W Widget Button Box}.
Variables (processes : registry M) (possible_inputs : list string).
Variables (t : trace) (sdd : Sdd) (rescale : bool).

(** X10. [animate_samples] draws sample 0 before it builds anything: on
    an empty trace it raises IndexError, and when sample 0 does not
    convert it raises that exception, in both cases without a single
    call to the notebook; the click handler alone would simply return
    on an empty trace. *)
Theorem animate_samples_first_frame (w : W) :
  (t = [] ->
   animate_samples processes possible_inputs t sdd rescale w
   = (Raise IndexError, w)
   /\ play processes possible_inputs t sdd rescale w = (Ok tt, w))
  /\ (forall s e,
        t !! 0 = Some s ->
        inputs_flows_as_dataframe processes possible_inputs
          (sample_inputs s) (sample_F s) = Raise e ->
        animate_samples processes possible_inputs t sdd rescale w
        = (Raise e, w)).
Proof.
  split.
  - by intros ->.
  - intros s e Hs He. unfold animate_samples, dataset.
    unfold mbind, io_mbind, io_bind, lift.
    by rewrite (proj2 (getitem_Ok t 0 s) Hs), He.
Qed.
End FirstFrame.

Lemma animate_samples_first_frame_witness :
  animate_samples [("A", tt)] ["x"; "y"] demo_trace tt false ([], [])
  = (Raise IndexError, ([], [])).
Proof.
  apply (proj2 (animate_samples_first_frame [("A", tt)] ["x"; "y"]
                  demo_trace tt false ([], []))
           (demo_sample 1 2) IndexError); reflexivity.
Defined.

Lemma getitem_z_out_of_range {A} (xs : list A) (i : Z) :
  (i < - Z.of_nat (length xs) \/ Z.of_nat (length xs) <= i)%Z ->
  getitem_z xs i = Raise IndexError.
Proof.
  intros Hi. unfold getitem_z.
  destruct (Z.ltb_spec i 0) as [Hneg|Hpos].
  - destruct (Z.ltb_spec (i + Z.of_nat (length xs)) 0) as [|]; [done|lia].
  - destruct (Z.ltb_spec i 0) as [|_]; [lia|].
    apply getitem_ge. lia.
Qed.

Lemma getitem_z_negative {A} (xs : list A) (i : Z) :
  (- Z.of_nat (length xs) <= i < 0)%Z ->
  getitem_z xs i = getitem_z xs (i + Z.of_nat (length xs)).
Proof.
  intros Hi. unfold getitem_z. cbv zeta.
  assert ((i <? 0)%Z = true) as -> by (apply Z.ltb_lt; lia).
  assert ((i + Z.of_nat (length xs) <? 0)%Z = false) as E
    by (apply Z.ltb_ge; lia).
  by rewrite !E.
Qed.

Section ShowSampleProperties.
Context {W Sdd Dataset Widget M : Type} `{!Notebook W Sdd Dataset Widget}
        `{!SampleView W Widget}.
Variables (processes : registry M) (possible_inputs : list string).
Variables (t : trace) (sdd : Sdd).

(** X11. [show_sample] indexes the trace like Python: an index outside
    [-len(trace), len(trace)) raises IndexError before any call to the
    notebook, and a negative index inside it shows the same sample as
    that index plus [len(trace)]. *)
Theorem show_sample_index (isamp : Z) (widget : option Widget) (burn : Z)
    (w : W) :
  ((isamp < - Z.of_nat (length t) \/ Z.of_nat (length t) <= isamp)%Z ->
   show_sample processes possible_inputs t sdd (Some isamp) widget burn w
   = (Raise IndexError, w))
  /\ ((- Z.of_nat (length t) <= isamp < 0)%Z ->
      show_sample processes possible_inputs t sdd (Some isamp) widget
        burn w
      = show_sample processes possible_inputs t sdd
          (Some (isamp + Z.of_nat (length t))%Z) widget burn w).
Proof.
  unfold show_sample, show_sample_dataset.
  unfold mbind, io_mbind, io_bind, lift. split.
  - intros Hi. by rewrite getitem_z_out_of_range.
  - intros Hi. by rewrite getitem_z_negative.
Qed.
End ShowSampleProperties.

Lemma show_sample_index_witness :
  show_sample [("A", tt); ("B", tt)] ["x"; "y"] demo_trace tt (Some 5%Z)
    None default_burn ([], [])
  = (Raise IndexError, ([], []))
  /\ show_sample [("A", tt); ("B", tt)] ["x"; "y"] demo_trace tt
       (Some (-1)%Z) None default_burn ([], [])
     = show_sample [("A", tt); ("B", tt)] ["x"; "y"] demo_trace tt
         (Some 4%Z) None default_burn ([], []).
Proof.
  pose proof (show_sample_index [("A", tt); ("B", tt)] ["x"; "y"]
                demo_trace tt 5%Z None default_burn ([], [])) as [Hout _].
  pose proof (show_sample_index [("A", tt); ("B", tt)] ["x"; "y"]
                demo_trace tt (-1)%Z None default_burn ([], []))
    as [_ Hneg].
  split.
  - apply Hout. right. simpl. lia.
  - apply Hneg. simpl. lia.
Defined.

(** ** [rgb2hex] outside its domain *)

Lemma map_res_all_Ok {A B} (f : A -> res B) (xs : list A) :
  Forall (fun x => exists y, f x = Ok y) xs ->
  exists ys, map_res f xs = Ok ys /\ length ys = length xs.
Proof.
  induction 1 as [|x xs [y Hy] _ (ys & Hys & Hlen)]; simpl.
  - by exists [].
  - rewrite Hy. simpl. rewrite Hys. simpl. exists (y :: ys).
    split; [done|]. simpl. by rewrite Hlen.
Qed.

Lemma map_res_length {A B} (f : A -> res B) (xs : list A) (ys : list B) :
  map_res f xs = Ok ys -> length ys = length xs.
Proof.
  revert ys. induction xs as [|x xs IH]; simpl; intros ys.
  - by intros [= <-].
  - destruct (f x) as [y|e]; [|discriminate]. simpl.
    destruct (map_res f xs) as [ys'|e]; [|discriminate]. simpl.
    intros [= <-]. simpl. by rewrite (IH ys').
Qed.

Lemma format_hash_02x3_short (args : list Z) :
  length args < 3 -> format_hash_02x3 args = Raise TypeError.
Proof.
  destruct args as [|r [|g [|b rest]]]; try reflexivity. simpl. lia.
Qed.

(** X12. A sequence of fewer than three components never makes [rgb2hex]
    return: once every component has been converted to an integer the
    format string, which asks for three arguments, raises TypeError
    (a component that is NaN or overflows raises before that). *)
Theorem rgb2hex_too_short (rgb : list float64) :
  length rgb < 3 ->
  (forall s, rgb2hex rgb <> Ok s) /\
  (Forall (fun val => exists z, component val = Ok z) rgb ->
   rgb2hex rgb = Raise TypeError).
Proof.
  intros Hlen.
  assert (take 3 rgb = rgb) as Htake by (apply take_ge; lia).
  unfold rgb2hex. rewrite Htake. split.
  - intros s Hs. apply bind_Ok_inv in Hs as (args & Hargs & Hfmt).
    apply map_res_length in Hargs.
    rewrite format_hash_02x3_short in Hfmt by lia. discriminate.
  - intros Hall. apply map_res_all_Ok in Hall as (args & -> & Hargs).
    simpl. apply format_hash_02x3_short. lia.
Qed.

Lemma rgb2hex_too_short_witness :
  rgb2hex [Finite 1; Finite (1 # 2)] = Raise TypeError.
Proof.
  apply (rgb2hex_too_short [Finite 1; Finite (1 # 2)]); [simpl; lia|].
  repeat constructor; eexists; vm_compute; reflexivity.
Defined.

Lemma string_length_app (a b : string) :
  String.length (a ++ b)%string = String.length a + String.length b.
Proof. induction a as [|c a IH]; simpl; [done | by rewrite IH]. Qed.

Lemma zeros_length (k : nat) : String.length (zeros k) = k.
Proof. induction k as [|k IH]; simpl; [done | by rewrite IH]. Qed.

Lemma to_hex_aux_length_acc (fuel : nat) (n : N) (acc : string) :
  String.length acc <= String.length (to_hex_aux fuel n acc).
Proof.
  revert n acc. induction fuel as [|fuel IH]; intros n acc; simpl; [done|].
  destruct (n / 16 =? 0)%N; simpl; [lia|].
  etransitivity; [|apply IH]. simpl. lia.
Qed.

Lemma to_hex_length_wide (n : N) :
  (256 <= n)%N -> 3 <= String.length (to_hex n).
Proof.
  intros Hn. unfold to_hex.
  assert (2 <= N.to_nat (N.size n)) as Hsize.
  { pose proof (N.size_gt n) as Hgt.
    destruct (N.size n) as [|p] eqn:Hs.
    - change (2 ^ 0)%N with 1%N in Hgt. lia.
    - destruct p as [p|p|]; lia. }
  destruct (N.to_nat (N.size n)) as [|[|fuel]]; try lia.
  assert (n / 16 <> 0)%N as H1.
  { intros H0. apply N.div_small_iff in H0; lia. }
  assert (n / 16 / 16 <> 0)%N as H2.
  { intros H0. apply N.div_small_iff in H0; [|lia].
    pose proof (N.div_le_lower_bound n 16 16) as Hq. lia. }
  simpl. apply N.eqb_neq in H1, H2. rewrite H1, H2.
  destruct (n / 16 / 16 / 16 =? 0)%N; simpl; [lia|].
  etransitivity; [|apply to_hex_aux_length_acc]. simpl. lia.
Qed.

Lemma format_02x_length (z : Z) : 2 <= String.length (format_02x z).
Proof.
  unfold format_02x. rewrite !string_length_app, zeros_length. lia.
Qed.

Lemma format_02x_length_wide (z : Z) :
  (256 <= z)%Z -> 3 <= String.length (format_02x z).
Proof.
  intros Hz. unfold format_02x. rewrite !string_length_app, zeros_length.
  pose proof (to_hex_length_wide (Z.abs_N z)) as H.
  assert (256 <= Z.abs_N z)%N by lia. lia.
Qed.

Lemma np_round_above_byte (x : Q) :
  (511 # 2 <= x)%Q -> (256 <= np_round x)%Z.
Proof.
  intros Hx. unfold np_round.
  pose proof (Qfloor_le x) as Hfl.
  assert (255 <= Qfloor x)%Z as Hf.
  { change 255%Z with (Qfloor (511 # 2)). by apply Qfloor_resp_le. }
  destruct (Z.eq_dec (Qfloor x) 255%Z) as [E|E].
  - rewrite E. change (inject_Z 255) with 255%Q.
    destruct (Qcompare_spec (x - 255) (1 # 2)) as [He|Hl|Hg];
      [reflexivity | lra | reflexivity].
  - destruct (x - inject_Z (Qfloor x) ?= 1 # 2)%Q;
      [destruct (Z.even (Qfloor x))| |]; lia.
Qed.

(** Rounding to a double does not take a number below 255.5, itself a
    double, when it was not below it. *)
Lemma round64_above_byte (x y : Q) :
  (511 # 2 <= x)%Q -> round64 x = Finite y -> (511 # 2 <= y)%Q.
Proof.
  intros Hx. unfold round64.
  assert (0 < x)%Q as Hpos by lra.
  rewrite (Qeq_bool_pos x Hpos).
  rewrite (Qabs_nonneg_eq x) by lra.
  set (e := Z.max (Qlog2 x - 52) (-1074)). cbv zeta.
  destruct (Qle_bool (2 ^ 1024) _);
    [destruct (Qle_bool 0 x); discriminate|].
  intros [= <-].
  pose proof (pow2_pos e) as Hpe. pose proof (pow2_pos (- e)) as Hpne.
  pose proof (pow2_cancel e) as Hcancel.
  set (m := np_round (x * 2 ^ (- e))).
  destruct (Z_le_gt_dec e (-1)) as [He|He].
  - pose proof (pow2_inject (- e - 1) ltac:(lia)) as Hint.
    assert (2 ^ (- e) == 2 * 2 ^ (- e - 1))%Q as Hsplit.
    { replace (- e)%Z with (1 + (- e - 1))%Z at 1 by lia.
      by rewrite Qpower_plus by discriminate. }
    assert ((511 # 2) * 2 ^ (- e) == inject_Z (511 * 2 ^ (- e - 1)))%Q
      as Hk.
    { rewrite inject_Z_mult, <- Hint, Hsplit.
      change (inject_Z 511) with 511%Q. field. }
    assert (511 * 2 ^ (- e - 1) <= m)%Z as Hm.
    { apply np_round_ge_Z. rewrite <- Hk.
      apply Qmult_le_compat_r; lra. }
    rewrite Zle_Qle, <- Hk in Hm.
    assert (511 # 2 == (511 # 2) * 2 ^ (- e) * 2 ^ e)%Q as ->
      by (rewrite <- Qmult_assoc, Hcancel; ring).
    apply Qmult_le_compat_r; lra.
  - assert (e = Qlog2 x - 52)%Z as Ee by lia.
    pose proof (Qlog2_lower x Hpos) as Hlow.
    assert (2 ^ Qlog2 x * 2 ^ (- e) == inject_Z (2 ^ 52))%Q as Hk.
    { rewrite <- Qpower_plus by discriminate.
      replace (Qlog2 x + - e)%Z with 52%Z by lia. reflexivity. }
    assert (2 ^ 52 <= m)%Z as Hm.
    { apply np_round_ge_Z. rewrite <- Hk.
      apply Qmult_le_compat_r; lra. }
    rewrite Zle_Qle in Hm.
    assert (1 <= 2 ^ e)%Q as Hone.
    { change 1%Q with (2 ^ 0)%Q. apply Qpower_le_compat_l; [lia|lra]. }
    assert (511 # 2 <= inject_Z (2 ^ 52))%Q as Hsmall
      by (vm_compute; discriminate).
    assert (inject_Z (2 ^ 52) * 1 <= inject_Z m * 2 ^ e)%Q as Hprod.
    { assert (0 <= inject_Z (2 ^ 52))%Q by lra.
      apply Qmult_le_compat_nonneg; split; lra. }
    lra.
Qed.

(** A component of 511/510 or more is converted to 256 or more. *)
Lemma component_above_byte (v : Q) (z : Z) :
  (511 # 510 <= v)%Q -> component (Finite v) = Ok z -> (256 <= z)%Z.
Proof.
  intros Hv Hz. apply component_Finite in Hz as (p & Hp & ->).
  apply np_round_above_byte. apply (round64_above_byte (v * 255)); [lra|done].
Qed.

(** X13. [rgb2hex] does not clamp: as soon as one of the first three
    components is 511/510 or more (so that it rounds above 255) its
    field takes three hexadecimal digits or more and the result is
    longer than the seven characters of '#RRGGBB'. *)
Theorem rgb2hex_overflow (r g b : Q) (rest : list float64) (s : string) :
  (511 # 510 <= r \/ 511 # 510 <= g \/ 511 # 510 <= b)%Q ->
  rgb2hex (Finite r :: Finite g :: Finite b :: rest) = Ok s ->
  7 < String.length s.
Proof.
  intros Hbig. unfold rgb2hex. simpl.
  destruct (component (Finite r)) as [R|] eqn:HR; [|discriminate].
  destruct (component (Finite g)) as [G|] eqn:HG; [|discriminate].
  destruct (component (Finite b)) as [B|] eqn:HB; [|discriminate].
  simpl. intros [= <-]. simpl.
  rewrite !string_length_app.
  pose proof (format_02x_length R). pose proof (format_02x_length G).
  pose proof (format_02x_length B).
  destruct Hbig as [Hr|[Hg|Hb]].
  - pose proof (format_02x_length_wide R) as Hw.
    pose proof (component_above_byte r R Hr HR). lia.
  - pose proof (format_02x_length_wide G) as Hw.
    pose proof (component_above_byte g G Hg HG). lia.
  - pose proof (format_02x_length_wide B) as Hw.
    pose proof (component_above_byte b B Hb HB). lia.
Qed.

Lemma rgb2hex_overflow_witness :
  7 < String.length "#1fe-100".
Proof.
  apply (rgb2hex_overflow 2 (-1 # 255) 0 []).
  - left. vm_compute. discriminate.
  - vm_compute. reflexivity.
Defined.

(** ** [_calc_variance] *)




Section CalcVarianceProperties.
Context `{!Pymc3} {Sdd Flows Dataset Graph Groups Palette Value : Type}
        `{!SankeyView Sdd Flows Dataset Graph Groups Palette Value}.

(** X14. On a diagram without edges [_calc_variance] raises ValueError
    when no colour range is given (the minimum of an empty array), but
    not when the range is given: then it colours the graph and returns
    the given range. *)
Theorem calc_variance_no_edges (flows : Flows) (sdd : Sdd) (normed : bool)
    (palette : Palette) (dataset : Dataset) (G : Graph) (groups : Groups) :
  new_dataset flows = Ok dataset ->
  sankey_view sdd dataset = Ok (G, groups) ->
  edges_data G = [] ->
  _calc_variance flows sdd normed None palette = Raise ValueError
  /\ forall vmin vmax,
       _calc_variance flows sdd normed (Some (vmin, vmax)) palette
       = (fun value => (value, vmin, vmax))
           <$> graph_to_sankey G groups
                 (get_color normed palette vmin vmax).
Proof.
  intros Hds HG Hedges. unfold _calc_variance.
  rewrite Hds. simpl. rewrite HG. simpl. rewrite Hedges. simpl.
  split; [done|]. intros vmin vmax.
  by destruct (graph_to_sankey G groups _).
Qed.

End CalcVarianceProperties.

Example calc_variance_example :
  @_calc_variance full_range_hpd _ _ _ _ _ _ _ edge_list_view
     [{["value" := [1; 2; 4]%Q]}; {["value" := [5; 5]%Q]};
      {["value" := [0; 1]%Q]}] tt false None tt
  = Ok (["#ffffff"; "#000000"; "#555555"], 0%Q, 3%Q).
Proof. vm_compute. reflexivity. Qed.

Lemma calc_variance_no_edges_witness :
  @_calc_variance full_range_hpd _ _ _ _ _ _ _ edge_list_view
     [] tt true None tt
  = Raise ValueError.
Proof.
  exact (proj1 (@calc_variance_no_edges full_range_hpd _ _ _ _ _ _ _
                  edge_list_view [] tt true tt [] [] tt eq_refl eq_refl
                  eq_refl)).
Defined.


(** ** The names in the dataframe *)

Lemma inputs_flows_as_dataframe_Ok_named {M} (processes : registry M)
    possible_inputs I F df :
  inputs_flows_as_dataframe processes possible_inputs I F = Ok df ->
  inputs_named possible_inputs I /\ cells_named (keys processes) F.
Proof.
  unfold inputs_flows_as_dataframe, shape0.
  rewrite <- input_steps_named.
  destruct (inputs_loop_outcome possible_inputs I []) as [[Hin ->]|[_ ->]];
    [|discriminate]. simpl.
  destruct (cells_loop_outcome (keys processes) (length F) F
              (input_records possible_inputs I))
    as [[Hc _]|[_ ->]]; [|discriminate].
  intros _. split; [done|]. by apply cell_steps_named in Hc as [_ ?].
Qed.

(** X16. Every node named in a dataframe returned by
    [inputs_flows_as_dataframe] is known: a record either goes from the
    literal 'inputs' to one of the possible inputs, or from one registry
    key to another. *)
Theorem dataframe_names_known {M} (processes : registry M)
    (possible_inputs : list string) (I : list Q) (F : matrix)
    (df : list edge) :
  inputs_flows_as_dataframe processes possible_inputs I F = Ok df ->
  Forall (fun r =>
            (source r = "inputs" /\ In (target r) possible_inputs) \/
            (In (source r) (keys processes) /\
             In (target r) (keys processes))) df.
Proof.
  intros Hdf.
  destruct (inputs_flows_as_dataframe_Ok_named _ _ _ _ _ Hdf)
    as [Hin Hcells].
  apply inputs_flows_as_dataframe_Ok in Hdf as ->.
  apply Forall_app; split; apply List.Forall_forall.
  - unfold input_records.
    intros r (i & <- & [[_ Hi]%in_seq Hpos%gt0_spec]%filter_In)%in_map_iff.
    left. simpl. split; [done|]. apply nth_In. by apply Hin.
  - unfold cell_records.
    intros r ([i j] & <- & [Hij Hpos%gt0_spec]%filter_In)%in_map_iff.
    apply in_prod_iff in Hij as [[_ Hi]%in_seq [_ Hj]%in_seq].
    simpl in *. destruct (Hcells i j) as [Hi' Hj']; [lia|lia|done|].
    right. split; by apply nth_In.
Qed.

Lemma dataframe_names_known_witness :
  Forall (fun r =>
            (source r = "inputs" /\ In (target r) ["x"; "y"]) \/
            (In (source r) ["A"; "B"] /\ In (target r) ["A"; "B"]))
         [Edge "inputs" "x" "?" 5; Edge "A" "B" "?" 2].
Proof.
  exact (dataframe_names_known [("A", tt); ("B", tt)] ["x"; "y"] [5; 0]%Q
           [[0; 2]; [0; 0]]%Q _ eq_refl).
Defined.

(** ** The colours of [_calc_variance] *)

Lemma rgb2hex_well_formed (r g b : Q) (rest : list float64) :
  (0 <= r <= 1)%Q -> (0 <= g <= 1)%Q -> (0 <= b <= 1)%Q ->
  exists s,
    rgb2hex (Finite r :: Finite g :: Finite b :: rest) = Ok s /\
    String.length s = 7.
Proof.
  intros Hr Hg Hb.
  destruct (component_unit r Hr) as (pr & _ & Hcr & HR).
  destruct (component_unit g Hg) as (pg & _ & Hcg & HG).
  destruct (component_unit b Hb) as (pb & _ & Hcb & HB).
  unfold rgb2hex. simpl. rewrite Hcr, Hcg, Hcb. simpl.
  eexists. split; [reflexivity|].
  by rewrite !format_02x_byte.
Qed.

Section ColourProperties.
Context `{!Pymc3} {Sdd Flows Dataset Graph Groups Palette Value : Type}
        `{!SankeyView Sdd Flows Dataset Graph Groups Palette Value}.

(** X17. Whenever the hue of an edge is defined and the palette answers
    with at least three components in [0, 1], the colour [_calc_variance]
    hands to floweaver for that edge is a string of exactly seven
    characters; the alpha component is dropped. *)
Theorem get_color_well_formed (normed : bool) (palette : Palette)
    (vmin vmax : Q) (data : measures) (h r g b : Q)
    (rest : list float64) :
  hue normed data = Ok h ->
  palette_call palette ((h - vmin) / (vmax - vmin))%Q
  = Ok (Finite r :: Finite g :: Finite b :: rest) ->
  (0 <= r <= 1)%Q -> (0 <= g <= 1)%Q -> (0 <= b <= 1)%Q ->
  exists s,
    get_color normed palette vmin vmax data = Ok s /\
    String.length s = 7 /\
    rgb2hex [Finite r; Finite g; Finite b] = Ok s.
Proof.
  intros Hh Hp Hr Hg Hb. unfold get_color. rewrite Hh. simpl.
  rewrite Hp. simpl.
  destruct (rgb2hex_well_formed r g b rest Hr Hg Hb) as (s & Hs & Hlen).
  exists s. by split; [|split].
Qed.
End ColourProperties.

Lemma get_color_well_formed_witness :
  exists s,
    @get_color full_range_hpd _ _ _ _ _ _ _ edge_list_view false tt 0 3
       {["value" := [0; 1]%Q]} = Ok s /\
    String.length s = 7 /\
    rgb2hex [Finite (1 # 3); Finite (1 # 3); Finite (1 # 3)] = Ok s.
Proof.
  assert ((0 <= 1 # 3 <= 1)%Q) as Hthird
    by (split; vm_compute; discriminate).
  exact (@get_color_well_formed full_range_hpd _ _ _ _ _ _ _
           edge_list_view false tt 0 3 {["value" := [0; 1]%Q]}
           1 (1 # 3) (1 # 3) (1 # 3) [Finite 1] eq_refl eq_refl
           Hthird Hthird Hthird).
Defined.

(** ** Aggregation per sample *)











Example measures_example :
  weave_variance_measures
    [SampleEdge "A" "B" "?" 0 3; SampleEdge "A" "C" "?" 0 1;
     SampleEdge "A" "B" "?" 2 5]
  !! "value" = Some [3 + (1 + 0); 5 + 0]%Q.
Proof. reflexivity. Qed.

(** ** No link is listed twice *)




